(** * dbsyncx: the change-propagation core of the MySQL sync service

    A shallow embedding of the Go packages [store], [database], [sync]
    (binlog listener, worker pool, conflict manager, sync manager,
    scheduler) and [api], together with the properties of the service
    specification that concern them and further properties of the code.

    Conventions of the embedding.
    - Go [string] and [[]byte] are Rocq [string]s (sequences of bytes).
    - Go [error] is [option string]; [None] is [nil].
    - [time.Time] is a number of seconds, [sql.NullX] is [option].
    - A Go [map[string]T] is a [gmap string T]; the [nil] map is kept apart
      where the code can tell the difference.
    - State that Go reaches through pointers (the event channel, the target
      database, the state database) is passed explicitly.
    - What the environment decides (driver faults, the arm a [select] takes
      when several are ready, the order of a [range] over a map, the clock,
      fresh uuids) is an explicit argument.

    The file has four parts: the model, package by package; the
    vocabulary the properties are stated in; sample data; the properties
    with their proofs. *)

From Stdlib Require Import ZArith String Ascii.
From stdpp Require Import base option list strings gmap sorting pretty.

Local Open Scope Z_scope.

(** ** Go basics *)

Definition error : Type := option string.
Definition nil : error := None.

Module Context.
(** [context.Context]: only cancellation is observed by this code. *)
Record t := { Done : bool }.
Definition Background : t := {| Done := false |}.
Definition Canceled : string := "context canceled".
Definition Err (ctx : t) : error := if Done ctx then Some Canceled else nil.
Definition cancel (ctx : t) : t := {| Done := true |}.
End Context.

Module Sql.
(** [database/sql]: a call on a pool fails with [ctx.Err()] when the
    context is already done, and otherwise with the fault the driver
    reports for this round trip, if any. *)
Definition roundTrip (ctx : Context.t) (fault : error) : error :=
  if Context.Done ctx then Some Context.Canceled else fault.

(** The faults the driver reports during one transaction. *)
Record TxFaults := { beginErr : error; commitErr : error; rollbackErr : error }.
Definition noFaults : TxFaults :=
  {| beginErr := nil; commitErr := nil; rollbackErr := nil |}.
End Sql.

(** ** crypto/sha256 *)

Module SHA256.

Definition mask32 : Z := 0xFFFFFFFF.
Definition w32 (x : Z) : Z := Z.land x mask32.
Definition add32 (x y : Z) : Z := w32 (x + y).
Definition rotr (n x : Z) : Z :=
  Z.lor (Z.shiftr x n) (w32 (Z.shiftl x (32 - n))).
Definition not32 (x : Z) : Z := Z.lxor x mask32.

Definition Ch (x y z : Z) : Z := Z.lxor (Z.land x y) (Z.land (not32 x) z).
Definition Maj (x y z : Z) : Z :=
  Z.lxor (Z.lxor (Z.land x y) (Z.land x z)) (Z.land y z).
Definition bigSigma0 (x : Z) : Z :=
  Z.lxor (Z.lxor (rotr 2 x) (rotr 13 x)) (rotr 22 x).
Definition bigSigma1 (x : Z) : Z :=
  Z.lxor (Z.lxor (rotr 6 x) (rotr 11 x)) (rotr 25 x).
Definition smallSigma0 (x : Z) : Z :=
  Z.lxor (Z.lxor (rotr 7 x) (rotr 18 x)) (Z.shiftr x 3).
Definition smallSigma1 (x : Z) : Z :=
  Z.lxor (Z.lxor (rotr 17 x) (rotr 19 x)) (Z.shiftr x 10).

(** The round constants are the first 32 bits of the fractional parts of
    the cube roots of the first 64 primes, the initial hash value those
    of the square roots of the first 8 primes. *)
Definition isPrime (n : Z) : bool :=
  forallb (λ d, negb (n mod d =? 0)) (seqZ 2 (n - 2)).

Definition primes : list Z := filter (λ n, isPrime n = true) (seqZ 2 310).

(** The integer cube root of [n], found bit by bit from bit [k - 1]
    down. *)
Fixpoint cbrtBits (k : nat) (n r : Z) : Z :=
  match k with
  | O => r
  | S k' =>
      let c := Z.lor r (Z.shiftl 1 (Z.of_nat k')) in
      cbrtBits k' n (if c * c * c <=? n then c else r)
  end.

Definition K : list Z :=
  (λ p, w32 (cbrtBits 40 (Z.shiftl p 96) 0)) <$> primes.

Definition H0 : list Z :=
  (λ p, w32 (Z.sqrt (Z.shiftl p 64))) <$> take 8 primes.

(** Big-endian encoding of [x] on [n] bytes, and its inverse. *)
Fixpoint be_bytes (n : nat) (x : Z) : list Z :=
  match n with
  | O => []
  | S n' => be_bytes n' (Z.shiftr x 8) ++ [Z.land x 0xFF]
  end.

Fixpoint be_word (bs : list Z) (acc : Z) : Z :=
  match bs with
  | [] => acc
  | b :: bs' => be_word bs' (Z.lor (Z.shiftl acc 8) b)
  end.

(** Padding: a 1 bit, zeros up to 56 mod 64, the bit length on 8 bytes. *)
Definition pad (msg : list Z) : list Z :=
  let len := Z.of_nat (length msg) in
  let zeros := Z.to_nat ((55 - len) mod 64) in
  msg ++ [0x80] ++ replicate zeros 0 ++ be_bytes 8 (8 * len).

Fixpoint words (n : nat) (bs : list Z) : list Z :=
  match n with
  | O => []
  | S n' => be_word (take 4 bs) 0 :: words n' (drop 4 bs)
  end.

Definition wat (ws : list Z) (i : nat) : Z := nth i ws 0.

(** The message schedule: [n] further words after the ones in [ws]. *)
Fixpoint schedule (n : nat) (ws : list Z) : list Z :=
  match n with
  | O => ws
  | S n' =>
      let i := length ws in
      let w := add32 (add32 (smallSigma1 (wat ws (i - 2))) (wat ws (i - 7)))
                     (add32 (smallSigma0 (wat ws (i - 15))) (wat ws (i - 16))) in
      schedule n' (ws ++ [w])
  end.

Definition round (st : list Z) (kw : Z * Z) : list Z :=
  match st with
  | [a; b; c; d; e; f; g; h] =>
      let t1 := add32 (add32 (add32 h (bigSigma1 e)) (add32 (Ch e f g) kw.1)) kw.2 in
      let t2 := add32 (bigSigma0 a) (Maj a b c) in
      [add32 t1 t2; a; b; c; add32 d t1; e; f; g]
  | _ => st
  end.

Definition block (h : list Z) (bs : list Z) : list Z :=
  let ws := schedule 48 (words 16 bs) in
  zip_with add32 h (foldl round h (zip K ws)).

Fixpoint blocks (n : nat) (h : list Z) (bs : list Z) : list Z :=
  match n with
  | O => h
  | S n' => blocks n' (block h (take 64 bs)) (drop 64 bs)
  end.

Definition bytes_of_string (s : string) : list Z :=
  (λ c, Z.of_N (N_of_ascii c)) <$> list_ascii_of_string s.

(** [sha256.Sum256]: the 32 bytes of the digest. *)
Definition Sum256 (msg : string) : list Z :=
  let p := pad (bytes_of_string msg) in
  flat_map (be_bytes 4) (blocks (length p / 64) H0 p).

End SHA256.

(** ** fmt and strconv, as far as the code uses them *)

Module Fmt.
Definition hexdigit (d : Z) : ascii :=
  nth (Z.to_nat d) (list_ascii_of_string "0123456789abcdef") "0"%char.

(** [fmt.Sprintf("%x", sum)] on a byte array: two lower-case hex digits
    per byte. *)
Fixpoint hex (bs : list Z) : string :=
  match bs with
  | [] => EmptyString
  | b :: bs' =>
      String (hexdigit (Z.shiftr b 4))
        (String (hexdigit (Z.land b 0xF)) (hex bs'))
  end.
End Fmt.

(** ** encoding/json: Marshal of a [map[string]interface{}]

    Row images are column-to-value maps.  The dynamic values covered are
    the scalar ones a row column holds as [nil], [bool], an integer or a
    [string]; floating-point, binary and nested values are not covered. *)

Module Json.

Inductive Value :=
  | VNull
  | VBool (b : bool)
  | VInt (n : Z)
  | VString (s : string).

Global Instance Value_eq_dec : EqDecision Value.
Proof. solve_decision. Defined.

(** A Go map value: the [nil] map or a map with entries. *)
Inductive GoMap :=
  | NilMap
  | Map (m : gmap string Value).

Definition entry : Type := string * Value.

Definition ascii_code (c : ascii) : Z := Z.of_N (N_of_ascii c).

(** The bytes below 0x80 that are copied unchanged ([htmlSafeSet]):
    everything from the space on, except the double quote, the backslash
    and the three characters escaped for HTML. *)
Definition htmlSafe (c : ascii) : bool :=
  let n := ascii_code c in
  (0x20 <=? n) && negb (n =? 0x22) && negb (n =? 0x5C)
    && negb (n =? 0x26) && negb (n =? 0x3C) && negb (n =? 0x3E).

Definition escapeByte (c : ascii) : string :=
  let n := ascii_code c in
  if (n =? 0x5C) || (n =? 0x22) then String "\"%char (String c EmptyString)
  else if n =? 0x0A then "\n"
  else if n =? 0x0D then "\r"
  else if n =? 0x09 then "\t"
  else "\u00" +:+ String (Fmt.hexdigit (Z.shiftr n 4))
                   (String (Fmt.hexdigit (Z.land n 0xF)) EmptyString).

(** The body of a JSON string.  Bytes from 0x80 on are copied as they
    are, which is what the encoder does for well-formed UTF-8 other than
    U+2028 and U+2029. *)
Fixpoint escape (s : string) : string :=
  match s with
  | EmptyString => EmptyString
  | String c s' =>
      if (0x80 <=? ascii_code c) || htmlSafe c
      then String c (escape s')
      else escapeByte c +:+ escape s'
  end.

Definition quote : string := String (ascii_of_N 34) EmptyString.

Definition encodeString (s : string) : string := quote +:+ escape s +:+ quote.

Definition encodeValue (v : Value) : string :=
  match v with
  | VNull => "null"
  | VBool true => "true"
  | VBool false => "false"
  | VInt n => pretty n
  | VString s => encodeString s
  end.

Definition encodeEntry (kv : entry) : string :=
  encodeString kv.1 +:+ ":" +:+ encodeValue kv.2.

Fixpoint encodeEntries (l : list entry) : string :=
  match l with
  | [] => ""
  | [kv] => encodeEntry kv
  | kv :: rest => encodeEntry kv +:+ "," +:+ encodeEntries rest
  end.

(** The encoder sorts the entries of a map by key, bytewise. *)
Definition key_le (x y : entry) : Prop := String.le x.1 y.1.

Global Instance key_le_dec : RelDecision key_le.
Proof. intros x y. unfold key_le. apply _. Defined.

Definition canonical (l : list entry) : list entry := merge_sort key_le l.

Definition encodeObject (l : list entry) : string :=
  "{" +:+ encodeEntries (canonical l) +:+ "}".

(** [json.Marshal(data)]; it has no error on these values. *)
Definition Marshal (data : GoMap) : string :=
  match data with
  | NilMap => "null"
  | Map m => encodeObject (map_to_list m)
  end.

End Json.

(** ** package config *)

Module Config.

Record DatabaseConnection := {
  Host : string;
  Port : Z;
  User : string;
  Password : string;
  Database : string;
  ReplicationUser : string;
  ReplicationPassword : string }.

Record TableConfig := {
  Name : string;
  ConflictResolution : string;
  BatchSize : Z;
  PrimaryKey : string;
  TimestampColumn : string }.

Record SyncConfig := {
  Mode : string;
  Tables : list TableConfig;
  Workers : Z;
  Realtime : bool;
  BatchInsertSize : Z }.

Record DatabasesConfig := {
  Local : DatabaseConnection;
  Cloud : DatabaseConnection }.

(** The parts of [Config] the sync core reads. *)
Record t := {
  Databases : DatabasesConfig;
  Sync : SyncConfig }.

End Config.

(** ** package store: models.go *)

Module SyncState.
(** A row of [sync_state], keyed by [table_name]. *)
Record t := {
  TableName : string;
  LastSyncTime : option Z;
  BinlogFile : option string;
  BinlogPosition : option Z;
  RowsSynced : Z;
  SyncDirection : string;
  Status : string;
  ErrorMessage : option string;
  UpdatedAt : Z }.
End SyncState.

Module Conflict.
(** A row of [conflicts], keyed by [id].  A [json.RawMessage] is a byte
    slice; [None] is the [nil] slice, stored as SQL NULL. *)
Record t := {
  ID : string;
  TableName : string;
  PrimaryKeyValue : string;
  LocalData : option string;
  CloudData : option string;
  ConflictType : string;
  DetectedAt : Z;
  Resolved : bool;
  ResolutionStrategy : option string;
  ResolvedAt : option Z;
  ResolvedData : option string }.
End Conflict.

(** ** package store: mysql.go

    The state database holds the tables of the migration.  [sync_state]
    has primary key [table_name]; [conflicts] has primary key [id] and no
    other unique key (the secondary indexes on [resolved] and [table_name]
    are plain indexes).  Each method takes the context and the fault the
    driver reports for its round trip; [now] is the server's [NOW()].
    Keys are compared byte by byte; of the checks the server makes on a
    row, the primary key is the one modelled (column lengths and the
    well-formedness of JSON columns are taken for granted).  The
    [sync_history] table, which no method shares with the other two, is
    modelled apart in [MySQLStoreHistory]. *)

Module MySQLStore.

Record t := {
  sync_state : gmap string SyncState.t;
  conflicts : gmap string Conflict.t }.

Definition empty : t := {| sync_state := ∅; conflicts := ∅ |}.

Definition duplicateEntry (id : string) : string :=
  "Error 1062: Duplicate entry '" +:+ id +:+ "' for key 'PRIMARY'".

(** SELECT ... FROM sync_state WHERE table_name = ?;  no row is
    [(nil, nil)]. *)
Definition GetSyncState (ctx : Context.t) (fault : error) (s : t)
    (tableName : string) : option SyncState.t * error :=
  match Sql.roundTrip ctx fault with
  | Some e => (None, Some e)
  | None => (sync_state s !! tableName, nil)
  end.

(** INSERT ... ON DUPLICATE KEY UPDATE: every column but the key is
    overwritten with the new value, [updated_at] with [NOW()]. *)
Definition UpdateSyncState (ctx : Context.t) (fault : error) (now : Z) (s : t)
    (state : SyncState.t) : t * error :=
  match Sql.roundTrip ctx fault with
  | Some e => (s, Some e)
  | None =>
      let row := {|
        SyncState.TableName := SyncState.TableName state;
        SyncState.LastSyncTime := SyncState.LastSyncTime state;
        SyncState.BinlogFile := SyncState.BinlogFile state;
        SyncState.BinlogPosition := SyncState.BinlogPosition state;
        SyncState.RowsSynced := SyncState.RowsSynced state;
        SyncState.SyncDirection := SyncState.SyncDirection state;
        SyncState.Status := SyncState.Status state;
        SyncState.ErrorMessage := SyncState.ErrorMessage state;
        SyncState.UpdatedAt := now |} in
      ({| sync_state := <[SyncState.TableName state := row]> (sync_state s);
          conflicts := conflicts s |}, nil)
  end.

(** INSERT INTO conflicts (id, table_name, primary_key_value, local_data,
    cloud_data, conflict_type, detected_at, resolved): a plain insert;
    the three resolution columns are not listed and stay NULL. *)
Definition CreateConflict (ctx : Context.t) (fault : error) (s : t)
    (conflict : Conflict.t) : t * error :=
  match Sql.roundTrip ctx fault with
  | Some e => (s, Some e)
  | None =>
      match conflicts s !! Conflict.ID conflict with
      | Some _ => (s, Some (duplicateEntry (Conflict.ID conflict)))
      | None =>
          let row := {|
            Conflict.ID := Conflict.ID conflict;
            Conflict.TableName := Conflict.TableName conflict;
            Conflict.PrimaryKeyValue := Conflict.PrimaryKeyValue conflict;
            Conflict.LocalData := Conflict.LocalData conflict;
            Conflict.CloudData := Conflict.CloudData conflict;
            Conflict.ConflictType := Conflict.ConflictType conflict;
            Conflict.DetectedAt := Conflict.DetectedAt conflict;
            Conflict.Resolved := Conflict.Resolved conflict;
            Conflict.ResolutionStrategy := None;
            Conflict.ResolvedAt := None;
            Conflict.ResolvedData := None |} in
          ({| sync_state := sync_state s;
              conflicts := <[Conflict.ID conflict := row]> (conflicts s) |}, nil)
      end
  end.

(** The error of [Scan] for a NULL in a column whose destination is a
    [*json.RawMessage]: [database/sql] stores a NULL into [*[]byte],
    [*any], [*RawBytes], a pointer or a [Scanner], and a [json.RawMessage]
    is none of these. *)
Definition scanNullError (index : Z) (column : string) : string :=
  "sql: Scan error on column index " +:+ pretty index +:+ ", name "
    +:+ Json.quote +:+ column +:+ Json.quote
    +:+ ": unsupported Scan, storing driver.Value type <nil> into type *json.RawMessage".

(** [Scan] of a row of [conflicts] into a [Conflict], column by column;
    the first column that cannot be stored gives the error.  The columns
    scanned into [sql.NullString] and [sql.NullTime] take a NULL. *)
Definition scanConflict (row : Conflict.t) : option Conflict.t * error :=
  match Conflict.LocalData row, Conflict.CloudData row, Conflict.ResolvedData row with
  | None, _, _ => (None, Some (scanNullError 3 "local_data"))
  | Some _, None, _ => (None, Some (scanNullError 4 "cloud_data"))
  | Some _, Some _, None => (None, Some (scanNullError 10 "resolved_data"))
  | Some _, Some _, Some _ => (Some row, nil)
  end.

(** SELECT ... FROM conflicts WHERE id = ?;  no row is [(nil, nil)]. *)
Definition GetConflict (ctx : Context.t) (fault : error) (s : t)
    (id : string) : option Conflict.t * error :=
  match Sql.roundTrip ctx fault with
  | Some e => (None, Some e)
  | None =>
      match conflicts s !! id with
      | None => (None, nil)
      | Some row => scanConflict row
      end
  end.

(** The loop over [rows.Next()]: the first row that cannot be scanned
    ends the call with its error and no list. *)
Fixpoint scanConflicts (rows : list Conflict.t) : list Conflict.t * error :=
  match rows with
  | [] => ([], nil)
  | row :: rest =>
      match scanConflict row with
      | (Some c, _) =>
          match scanConflicts rest with
          | (cs, None) => (c :: cs, nil)
          | (_, Some e) => ([], Some e)
          end
      | (None, e) => ([], e)
      end
  end.

Definition incorrectArguments : string :=
  "Error 1210: Incorrect arguments to mysqld_stmt_execute".

(** SELECT ... FROM conflicts WHERE resolved = ? LIMIT ? OFFSET ?;  the
    statement has no ORDER BY, so the server returns the matching rows in
    an order of its choice, [scanOrder].  The server refuses a negative
    LIMIT or OFFSET.  A [nil] slice is the empty list.  The fault is
    that of the query; a connection lost while the rows are read, which
    the code would take for the end of the rows, is not modelled. *)
Definition ListConflicts (ctx : Context.t) (fault : error)
    (scanOrder : list Conflict.t → list Conflict.t) (s : t)
    (resolved : bool) (limit offset : Z) : list Conflict.t * error :=
  match Sql.roundTrip ctx fault with
  | Some e => ([], Some e)
  | None =>
      if decide (limit < 0 ∨ offset < 0) then ([], Some incorrectArguments)
      else
        let matching :=
          filter (λ c, Conflict.Resolved c = resolved)
                 (map_to_list (conflicts s)).*2 in
        scanConflicts
          (take (Z.to_nat limit) (drop (Z.to_nat offset) (scanOrder matching)))
  end.

Definition resolveRow (strategy : string) (resolvedData : option string)
    (now : Z) (c : Conflict.t) : Conflict.t :=
  {| Conflict.ID := Conflict.ID c;
     Conflict.TableName := Conflict.TableName c;
     Conflict.PrimaryKeyValue := Conflict.PrimaryKeyValue c;
     Conflict.LocalData := Conflict.LocalData c;
     Conflict.CloudData := Conflict.CloudData c;
     Conflict.ConflictType := Conflict.ConflictType c;
     Conflict.DetectedAt := Conflict.DetectedAt c;
     Conflict.Resolved := true;
     Conflict.ResolutionStrategy := Some strategy;
     Conflict.ResolvedAt := Some now;
     Conflict.ResolvedData := resolvedData |}.

(** UPDATE conflicts SET resolved = TRUE, resolution_strategy = ?,
    resolved_data = ?, resolved_at = NOW() WHERE id = ?;  the number of
    rows the statement affected is not looked at.  The second component
    of the result is that number. *)
Definition ResolveConflict (ctx : Context.t) (fault : error) (now : Z) (s : t)
    (id : string) (strategy : string) (resolvedData : option string)
    : t * nat * error :=
  match Sql.roundTrip ctx fault with
  | Some e => (s, 0%nat, Some e)
  | None =>
      match conflicts s !! id with
      | Some c =>
          ({| sync_state := sync_state s;
              conflicts :=
                <[id := resolveRow strategy resolvedData now c]> (conflicts s) |},
           1%nat, nil)
      | None => (s, 0%nat, nil)
      end
  end.

(** The rows a [SELECT ... WHERE table_name = ? AND primary_key_value = ?
    AND resolved = FALSE] would return: the unresolved conflicts of one
    row of one table. *)
Definition unresolvedFor (s : t) (table pk : string) : list Conflict.t :=
  filter (λ c, Conflict.TableName c = table
               ∧ Conflict.PrimaryKeyValue c = pk
               ∧ Conflict.Resolved c = false)
         (map_to_list (conflicts s)).*2.

End MySQLStore.

(** ** package sync: events.go *)

Module BinlogEvent.

Inductive EventType := Insert | Update | Delete.

Global Instance EventType_eq_dec : EqDecision EventType.
Proof. solve_decision. Defined.

(** One row mutation read from the source log ([Type] is a reserved word
    here, hence [Type_]). *)
Record t := {
  Type_ : EventType;
  Schema : string;
  Table : string;
  Rows : list (list Json.Value);
  Timestamp : Z;
  BinlogFile : string;
  BinlogPos : Z }.

Global Instance eq_dec : EqDecision t.
Proof. solve_decision. Defined.

End BinlogEvent.

(** ** Buffered channels *)

Module Chan.

Record t (A : Type) := {
  cap : Z;
  buf : list A;
  closed : bool }.
Global Arguments cap {A} _.
Global Arguments buf {A} _.
Global Arguments closed {A} _.

(** [make(chan A, n)] *)
Definition make {A} (n : Z) : t A := {| cap := n; buf := []; closed := false |}.

Definition withBuf {A} (ch : t A) (b : list A) : t A :=
  {| cap := cap ch; buf := b; closed := closed ch |}.

(** [close(ch)] *)
Definition close {A} (ch : t A) : t A :=
  {| cap := cap ch; buf := buf ch; closed := true |}.

Definition hasSpace {A} (ch : t A) : bool := Z.of_nat (length (buf ch)) <? cap ch.

(** A send arm of a [select] can be taken when the buffer has room; on a
    closed channel it can be taken too, and panics. *)
Definition sendReady {A} (ch : t A) : bool := closed ch || hasSpace ch.

(** The result of taking the send arm: [None] is the panic. *)
Definition send {A} (ch : t A) (x : A) : option (t A) :=
  if closed ch then None else Some (withBuf ch (buf ch ++ [x])).

(** A receive [x, ok := <-ch] that does not block: the oldest element,
    or [ok = false] on a closed and drained channel. *)
Inductive Recv (A : Type) :=
  | Got (x : A) (ch : t A)
  | Closed
  | Empty.
Global Arguments Got {A} _ _.
Global Arguments Closed {A}.
Global Arguments Empty {A}.

Definition recv {A} (ch : t A) : Recv A :=
  match buf ch with
  | x :: b => Got x (withBuf ch b)
  | [] => if closed ch then Closed else Empty
  end.

End Chan.

(** ** package sync: binlog.go *)

Module Canal.
(** What this code uses of [go-mysql/canal]. *)
Record Config := {
  Addr : string;
  User : string;
  Password : string;
  Flavor : string;
  ServerID : Z;
  DumpExecutionPath : string;
  IncludeTableRegex : list string }.

(** [mysql.Position], as returned by [SyncedPosition]. *)
Record Position := { Name : string; Pos : Z }.

Definition InsertAction : string := "insert".
Definition UpdateAction : string := "update".
Definition DeleteAction : string := "delete".

(** [canal.RowsEvent], flattened. *)
Record RowsEvent := {
  TableSchema : string;
  TableName : string;
  Action : string;
  Rows : list (list Json.Value);
  HeaderTimestamp : Z }.
End Canal.

Module BinlogListener.

Record t := {
  cfg : Config.DatabaseConnection;
  canal : Canal.Config;
  eventChan : Chan.t BinlogEvent.t;
  ctx : Context.t;
  tables : gset string }.

Definition tableRegex (cfg : Config.DatabaseConnection)
    (tc : Config.TableConfig) : string :=
  "^" +:+ Config.Database cfg +:+ "\." +:+ Config.Name tc +:+ "$".

(** [NewBinlogListener(cfg, tables)].  [newCanalErr] is the error of
    [canal.NewCanal], if any.  The listener is built from the connection
    settings and the table names; the queue is created here. *)
Definition NewBinlogListener (newCanalErr : error)
    (cfg : Config.DatabaseConnection) (tables : list Config.TableConfig)
    : option t * error :=
  let tableMap : gset string := list_to_set (Config.Name <$> tables) in
  let tableRegexes := tableRegex cfg <$> tables in
  let c := {|
    Canal.Addr := Config.Host cfg +:+ ":" +:+ pretty (Config.Port cfg);
    Canal.User := Config.ReplicationUser cfg;
    Canal.Password := Config.ReplicationPassword cfg;
    Canal.Flavor := "mysql";
    Canal.ServerID := 100;
    Canal.DumpExecutionPath := "";
    Canal.IncludeTableRegex := tableRegexes |} in
  match newCanalErr with
  | Some err => (None, Some ("failed to create canal: " +:+ err))
  | None =>
      (Some {| cfg := cfg;
               canal := c;
               eventChan := Chan.make 10000;
               ctx := Context.Background;
               tables := tableMap |}, nil)
  end.

(** [Start]: runs the canal in a goroutine and returns [nil]. *)
Definition Start (l : t) : error := nil.

(** [l.cancel()] *)
Definition cancel (l : t) : t :=
  {| cfg := cfg l;
     canal := canal l;
     eventChan := eventChan l;
     ctx := Context.cancel (ctx l);
     tables := tables l |}.

(** [Stop]: cancel, close the canal, close the queue. *)
Definition Stop (l : t) : t :=
  let l1 := cancel l in
  {| cfg := cfg l1;
     canal := canal l1;
     eventChan := Chan.close (eventChan l1);
     ctx := ctx l1;
     tables := tables l1 |}.

Definition Events (l : t) : Chan.t BinlogEvent.t := eventChan l.

Definition withChan (l : t) (ch : Chan.t BinlogEvent.t) : t :=
  {| cfg := cfg l; canal := canal l; eventChan := ch;
     ctx := ctx l; tables := tables l |}.

(** The [switch] on [e.Action]; [None] is the [default] arm. *)
Definition eventTypeOf (action : string) : option BinlogEvent.EventType :=
  if decide (action = Canal.InsertAction) then Some BinlogEvent.Insert
  else if decide (action = Canal.UpdateAction) then Some BinlogEvent.Update
  else if decide (action = Canal.DeleteAction) then Some BinlogEvent.Delete
  else None.

(** What a call of [OnRow] comes to: it returns, or it is parked in the
    [select] with its event, or the send panics (closed queue). *)
Inductive OnRowResult :=
  | Return (l : t) (err : error)
  | Parked (l : t) (pending : BinlogEvent.t)
  | Panic.

(** [eventHandler.OnRow(e)].  [pos] is [canal.SyncedPosition()];
    [pick] is the arm the [select] takes when both are ready ([true]:
    the send). *)
Definition OnRow (pick : bool) (l : t) (pos : Canal.Position)
    (e : Canal.RowsEvent) : OnRowResult :=
  if decide (Canal.TableName e ∈ tables l) then
    match eventTypeOf (Canal.Action e) with
    | None => Return l nil
    | Some eventType =>
        let binlogEvent := {|
          BinlogEvent.Type_ := eventType;
          BinlogEvent.Schema := Canal.TableSchema e;
          BinlogEvent.Table := Canal.TableName e;
          BinlogEvent.Rows := Canal.Rows e;
          BinlogEvent.Timestamp := Canal.HeaderTimestamp e;
          BinlogEvent.BinlogFile := Canal.Name pos;
          BinlogEvent.BinlogPos := Canal.Pos pos |} in
        let sendArm :=
          match Chan.send (eventChan l) binlogEvent with
          | Some ch => Return (withChan l ch) nil
          | None => Panic
          end in
        let doneArm := Return l (Context.Err (ctx l)) in
        match Chan.sendReady (eventChan l), Context.Done (ctx l) with
        | true, false => sendArm
        | false, true => doneArm
        | true, true => if pick then sendArm else doneArm
        | false, false => Parked l binlogEvent
        end
    end
  else Return l nil.

End BinlogListener.

(** ** package database *)

Module Database.

(** A transaction on the target, as the log of the target shows it: the
    SQL it issued and the events its body ranged over. *)
Record Tx := {
  stmts : list string;
  covers : list BinlogEvent.t }.

Definition emptyTx : Tx := {| stmts := []; covers := [] |}.

(** The target database: its committed transactions, oldest first. *)
Record t := {
  Config : Config.DatabaseConnection;
  committed : list Tx }.

Definition commit (d : t) (tx : Tx) : t :=
  {| Config := Config d; committed := committed d ++ [tx] |}.

(** [ExecTx(ctx, fn)]: begin, run [fn], roll back on its error, commit
    otherwise. *)
Definition ExecTx (ctx : Context.t) (faults : Sql.TxFaults) (d : t)
    (fn : Tx → Tx * error) : t * error :=
  match Sql.roundTrip ctx (Sql.beginErr faults) with
  | Some err => (d, Some err)
  | None =>
      let '(tx, fnErr) := fn emptyTx in
      match fnErr with
      | Some err =>
          match Sql.rollbackErr faults with
          | Some rbErr =>
              (d, Some ("tx err: " +:+ err +:+ ", rb err: " +:+ rbErr))
          | None => (d, Some err)
          end
      | None =>
          match Sql.commitErr faults with
          | Some err => (d, Some err)
          | None => (commit d tx, nil)
          end
      end
  end.

End Database.

(** ** package sync: worker.go *)

Module WorkerPool.

Record Worker := {
  id : Z;
  batch : list BinlogEvent.t }.

(** The pool, without the handles it shares with the rest of the
    service (they are in [World]). *)
Record t := {
  workers : list Worker;
  ctx : Context.t;
  batchSize : Z }.

(** What the pool's handles point to: the listener's queue, the target
    database and the state database. *)
Record World := {
  eventChan : Chan.t BinlogEvent.t;
  targetDB : Database.t;
  store : MySQLStore.t }.

(** What the environment decides during one [processBatch]: the faults
    of the transaction opened for a table, the fault of the state write
    for a table, the clock of the state database, and the order in which
    [range] visits the groups. *)
Record Env := {
  txFaults : string → Sql.TxFaults;
  storeFault : string → error;
  now : Z;
  rangeOrder : list (string * list BinlogEvent.t)
               → list (string * list BinlogEvent.t) }.

Definition newWorker (i : Z) : Worker := {| id := i; batch := [] |}.

(** [NewWorkerPool]: [cfg.Workers] workers numbered from 0 (none when
    [cfg.Workers] is not positive; on a negative number [make] panics). *)
Definition NewWorkerPool (cfg : Config.SyncConfig) : t :=
  {| workers := newWorker <$> seqZ 0 (Config.Workers cfg);
     ctx := Context.Background;
     batchSize := Config.BatchInsertSize cfg |}.

(** [Stop]: cancel and wait. *)
Definition Stop (p : t) : t :=
  {| workers := workers p; ctx := Context.cancel (ctx p); batchSize := batchSize p |}.

(** The body handed to [ExecTx]: it ranges over the events and issues no
    statement (the SQL generation is still to be written); the events
    ranged over are kept with the transaction, so that the log of the
    target tells which group a transaction was opened for. *)
Definition applyBody (events : list BinlogEvent.t) (tx : Database.Tx)
    : Database.Tx * error :=
  (foldl (λ tx e, {| Database.stmts := Database.stmts tx;
                     Database.covers := Database.covers tx ++ [e] |})
         tx events,
   nil).

(** [applyChanges(table, events)] *)
Definition applyChanges (p : t) (faults : Sql.TxFaults) (d : Database.t)
    (table : string) (events : list BinlogEvent.t) : Database.t * error :=
  Database.ExecTx (ctx p) faults d (applyBody events).

(** [updateState(table, lastEvent)]: the error of the write is dropped. *)
Definition updateState (p : t) (fault : error) (now : Z) (s : MySQLStore.t)
    (table : string) (lastEvent : BinlogEvent.t) : MySQLStore.t :=
  let state := {|
    SyncState.TableName := table;
    SyncState.LastSyncTime := Some (BinlogEvent.Timestamp lastEvent);
    SyncState.BinlogFile := Some (BinlogEvent.BinlogFile lastEvent);
    SyncState.BinlogPosition := Some (BinlogEvent.BinlogPos lastEvent);
    SyncState.RowsSynced := 0;
    SyncState.SyncDirection := "";
    SyncState.Status := "running";
    SyncState.ErrorMessage := None;
    SyncState.UpdatedAt := 0 |} in
  (MySQLStore.UpdateSyncState (ctx p) fault now s state).1.

(** [eventsByTable[e.Table] = append(eventsByTable[e.Table], e)] over the
    batch. *)
Definition groupByTable (batch : list BinlogEvent.t)
    : gmap string (list BinlogEvent.t) :=
  foldl (λ m e, <[BinlogEvent.Table e :=
                    default [] (m !! BinlogEvent.Table e) ++ [e]]> m)
        ∅ batch.

(** One turn of the loop over the groups.  A group is never empty; the
    last arm stands for the index panic of [events[len(events)-1]]. *)
Definition processGroup (env : Env) (p : t) (wd : World)
    (g : string * list BinlogEvent.t) : World :=
  let '(table, events) := g in
  let '(d, err) := applyChanges p (txFaults env table) (targetDB wd) table events in
  match err with
  | Some _ =>
      {| eventChan := eventChan wd; targetDB := d; store := store wd |}
  | None =>
      match last events with
      | Some lastEvent =>
          {| eventChan := eventChan wd;
             targetDB := d;
             store := updateState p (storeFault env table) (now env)
                        (store wd) table lastEvent |}
      | None => {| eventChan := eventChan wd; targetDB := d; store := store wd |}
      end
  end.

(** [processBatch] *)
Definition processBatch (env : Env) (p : t) (w : Worker) (wd : World)
    : Worker * World :=
  match batch w with
  | [] => (w, wd)
  | _ =>
      let eventsByTable := groupByTable (batch w) in
      let wd' := foldl (processGroup env p) wd
                   (rangeOrder env (map_to_list eventsByTable)) in
      ({| id := id w; batch := [] |}, wd')
  end.

(** What wakes the [select] of [run]. *)
Inductive Wake :=
  | Event (e : BinlogEvent.t)
  | ChanClosed
  | Tick
  | CtxDone.

(** One turn of the loop of [run]; the boolean tells whether [run]
    returns. *)
Definition run (env : Env) (p : t) (wk : Wake) (w : Worker) (wd : World)
    : Worker * World * bool :=
  match wk with
  | Event e =>
      let w1 := {| id := id w; batch := batch w ++ [e] |} in
      if Z.of_nat (length (batch w1)) >=? batchSize p
      then (processBatch env p w1 wd, false)
      else (w1, wd, false)
  | ChanClosed => (processBatch env p w wd, true)
  | Tick =>
      if (0 <? length (batch w))%nat
      then (processBatch env p w wd, false)
      else (w, wd, false)
  | CtxDone => (processBatch env p w wd, true)
  end.

(** *** The pool at work

    The workers all receive from the one queue.  A move of the system is
    the listener putting an event into the queue, or one worker taking
    the next turn of its loop: receiving the oldest queued event, or a
    tick of its timer.  A turn is taken in one piece, flush included;
    workers are interleaved turn by turn. *)
Inductive Move :=
  | Enqueue (e : BinlogEvent.t)
  | Receive (i : nat) (env : Env)
  | Timer (i : nat) (env : Env).

Record State := {
  pool : t;
  world : World }.

Definition withWorker (p : t) (i : nat) (w : Worker) : t :=
  {| workers := <[i := w]> (workers p); ctx := ctx p; batchSize := batchSize p |}.

Definition withChan (wd : World) (ch : Chan.t BinlogEvent.t) : World :=
  {| eventChan := ch; targetDB := targetDB wd; store := store wd |}.

(** A move that cannot be made (full queue, nothing to receive, no such
    worker) gives [None]. *)
Definition step (mv : Move) (s : State) : option State :=
  match mv with
  | Enqueue e =>
      if Chan.hasSpace (eventChan (world s)) && negb (Chan.closed (eventChan (world s)))
      then ch ← Chan.send (eventChan (world s)) e;
           Some {| pool := pool s; world := withChan (world s) ch |}
      else None
  | Receive i env =>
      w ← workers (pool s) !! i;
      match Chan.recv (eventChan (world s)) with
      | Chan.Got e ch =>
          let '(w', wd', _) := run env (pool s) (Event e) w (withChan (world s) ch) in
          Some {| pool := withWorker (pool s) i w'; world := wd' |}
      | _ => None
      end
  | Timer i env =>
      w ← workers (pool s) !! i;
      let '(w', wd', _) := run env (pool s) Tick w (world s) in
      Some {| pool := withWorker (pool s) i w'; world := wd' |}
  end.

Fixpoint exec (mvs : list Move) (s : State) : option State :=
  match mvs with
  | [] => Some s
  | mv :: rest => s' ← step mv s; exec rest s'
  end.

(** The events of table [T] in a sequence of events, in order. *)
Definition ofTable (T : string) (l : list BinlogEvent.t) : list BinlogEvent.t :=
  filter (λ e, BinlogEvent.Table e = T) l.

(** The events of [T] the target has committed, in commit order. *)
Definition committedFor (T : string) (d : Database.t) : list BinlogEvent.t :=
  ofTable T (flat_map Database.covers (Database.committed d)).


End WorkerPool.

(** ** package sync: conflict.go *)

Module ConflictManager.

(** [calculateHash(data)]: the hex SHA-256 of the JSON text of the
    image. *)
Definition calculateHash (data : Json.GoMap) : string :=
  let bytes := Json.Marshal data in
  let sum := SHA256.Sum256 bytes in
  Fmt.hex sum.

(** [DetectConflict(ctx, table, pk, localData, cloudData)].  [id] is the
    fresh uuid and [now] the clock reading the call takes. *)
Definition DetectConflict (id : string) (now : Z) (table pk : string)
    (localData cloudData : Json.GoMap) : bool * option Conflict.t :=
  let localHash := calculateHash localData in
  let cloudHash := calculateHash cloudData in
  if decide (localHash = cloudHash) then (false, None)
  else
    (true, Some {|
       Conflict.ID := id;
       Conflict.TableName := table;
       Conflict.PrimaryKeyValue := pk;
       Conflict.LocalData := Some (Json.Marshal localData);
       Conflict.CloudData := Some (Json.Marshal cloudData);
       Conflict.ConflictType := "data_mismatch";
       Conflict.DetectedAt := now;
       Conflict.Resolved := false;
       Conflict.ResolutionStrategy := None;
       Conflict.ResolvedAt := None;
       Conflict.ResolvedData := None |}).

(** [RecordConflict(ctx, conflict)] *)
Definition RecordConflict (ctx : Context.t) (fault : error)
    (s : MySQLStore.t) (conflict : Conflict.t) : MySQLStore.t * error :=
  MySQLStore.CreateConflict ctx fault s conflict.

End ConflictManager.

Module LastWriteWinsStrategy.

Record t := { TimestampColumn : string }.

Definition rawBytes (r : option string) : string := default "" r.

(** [Resolve(conflict)].  [unmarshal] is [json.Unmarshal] into a [nil]
    map: the map it leaves in the variable, and its error (which the
    code drops). *)
Definition Resolve (unmarshal : string → Json.GoMap * error) (s : t)
    (conflict : Conflict.t) : Json.GoMap * error :=
  let local := (unmarshal (rawBytes (Conflict.LocalData conflict))).1 in
  let cloud := (unmarshal (rawBytes (Conflict.CloudData conflict))).1 in
  (local, nil).

End LastWriteWinsStrategy.

(** ** package sync: manager.go *)

Module Manager.

Record t := {
  cfg : Config.t;
  binlogListener : option BinlogListener.t;
  workerPool : option WorkerPool.t;
  status : string }.

(** [NewManager], once both databases are connected. *)
Definition NewManager (cfg : Config.t) : t :=
  {| cfg := cfg; binlogListener := None; workerPool := None; status := "idle" |}.

(** [Start()].  The state database [s] is the one behind [m.store]: its
    handle is passed on to the worker pool.  [newCanalErr] is the error
    of [canal.NewCanal], if any. *)
Definition Start (newCanalErr : error) (m : t) (s : MySQLStore.t)
    : t * MySQLStore.t * error :=
  if decide (status m = "running") then
    (m, s, Some "sync is already running")
  else
    match BinlogListener.NewBinlogListener newCanalErr
            (Config.Local (Config.Databases (cfg m)))
            (Config.Tables (Config.Sync (cfg m))) with
    | (Some listener, _) =>
        let pool := WorkerPool.NewWorkerPool (Config.Sync (cfg m)) in
        match BinlogListener.Start listener with
        | Some err =>
            ({| cfg := cfg m;
                binlogListener := Some listener;
                workerPool := Some (WorkerPool.Stop pool);
                status := status m |}, s, Some err)
        | None =>
            ({| cfg := cfg m;
                binlogListener := Some listener;
                workerPool := Some pool;
                status := "running" |}, s, nil)
        end
    | (None, err) => (m, s, err)
    end.

(** [Stop()] *)
Definition Stop (m : t) : t :=
  if decide (status m = "running") then
    {| cfg := cfg m;
       binlogListener := BinlogListener.Stop <$> binlogListener m;
       workerPool := WorkerPool.Stop <$> workerPool m;
       status := "idle" |}
  else m.

Definition GetStatus (m : t) : string := status m.

End Manager.

(** ** The listener feeding the queue

    The canal calls [OnRow] once per row event of the source, in log
    order, and waits for it to return; the workers take events off the
    other end. *)

Module Pipeline.

Record t := {
  source : list (Canal.Position * Canal.RowsEvent);
  listener : BinlogListener.t;
  delivered : list BinlogEvent.t }.

Inductive Move :=
  | Produce (pick : bool)
  | Consume.

(** A move that cannot be made gives [None]: [OnRow] parked on a full
    queue, or nothing to consume.  The run also ends when [OnRow]
    returns an error or panics. *)
Definition step (mv : Move) (s : t) : option t :=
  match mv with
  | Produce pick =>
      match source s with
      | [] => None
      | (pos, e) :: rest =>
          match BinlogListener.OnRow pick (listener s) pos e with
          | BinlogListener.Return l None =>
              Some {| source := rest; listener := l; delivered := delivered s |}
          | _ => None
          end
      end
  | Consume =>
      match Chan.recv (BinlogListener.eventChan (listener s)) with
      | Chan.Got x ch =>
          Some {| source := source s;
                  listener := BinlogListener.withChan (listener s) ch;
                  delivered := delivered s ++ [x] |}
      | _ => None
      end
  end.

Fixpoint exec (mvs : list Move) (s : t) : option t :=
  match mvs with
  | [] => Some s
  | mv :: rest => s' ← step mv s; exec rest s'
  end.

(** The event a row event of the source is to be forwarded as, if it is
    to be forwarded: its table is on the allow-list and it is an insert,
    an update or a delete. *)
Definition forwarded (allow : gset string)
    (pe : Canal.Position * Canal.RowsEvent) : option BinlogEvent.t :=
  if decide (Canal.TableName pe.2 ∈ allow) then
    ty ← BinlogListener.eventTypeOf (Canal.Action pe.2);
    Some {| BinlogEvent.Type_ := ty;
            BinlogEvent.Schema := Canal.TableSchema pe.2;
            BinlogEvent.Table := Canal.TableName pe.2;
            BinlogEvent.Rows := Canal.Rows pe.2;
            BinlogEvent.Timestamp := Canal.HeaderTimestamp pe.2;
            BinlogEvent.BinlogFile := Canal.Name pe.1;
            BinlogEvent.BinlogPos := Canal.Pos pe.1 |}
  else None.

End Pipeline.

(** ** package store: mysql.go, the [sync_history] table *)

Module SyncHistory.
(** A row of [sync_history], keyed by [id]. *)
Record t := {
  ID : string;
  StartedAt : Z;
  CompletedAt : option Z;
  Direction : string;
  TablesSynced : string;
  TotalRows : Z;
  ConflictsDetected : Z;
  Status : string;
  ErrorMessage : option string }.
End SyncHistory.

Module MySQLStoreHistory.

(** The rows of [sync_history], by primary key. *)
Abbreviation t := (gmap string SyncHistory.t).

(** INSERT INTO sync_history (...) VALUES (...): a plain insert. *)
Definition CreateSyncHistory (ctx : Context.t) (fault : error) (s : t)
    (history : SyncHistory.t) : t * error :=
  match Sql.roundTrip ctx fault with
  | Some e => (s, Some e)
  | None =>
      match s !! SyncHistory.ID history with
      | Some _ => (s, Some (MySQLStore.duplicateEntry (SyncHistory.ID history)))
      | None => (<[SyncHistory.ID history := history]> s, nil)
      end
  end.

Definition updateRow (history row : SyncHistory.t) : SyncHistory.t := {|
  SyncHistory.ID := SyncHistory.ID row;
  SyncHistory.StartedAt := SyncHistory.StartedAt row;
  SyncHistory.CompletedAt := SyncHistory.CompletedAt history;
  SyncHistory.Direction := SyncHistory.Direction row;
  SyncHistory.TablesSynced := SyncHistory.TablesSynced row;
  SyncHistory.TotalRows := SyncHistory.TotalRows history;
  SyncHistory.ConflictsDetected := SyncHistory.ConflictsDetected history;
  SyncHistory.Status := SyncHistory.Status history;
  SyncHistory.ErrorMessage := SyncHistory.ErrorMessage history |}.

(** UPDATE sync_history SET completed_at = ?, total_rows = ?,
    conflicts_detected = ?, status = ?, error_message = ? WHERE id = ?;
    the number of rows affected is not looked at. *)
Definition UpdateSyncHistory (ctx : Context.t) (fault : error) (s : t)
    (history : SyncHistory.t) : t * error :=
  match Sql.roundTrip ctx fault with
  | Some e => (s, Some e)
  | None =>
      match s !! SyncHistory.ID history with
      | Some row => (<[SyncHistory.ID history := updateRow history row]> s, nil)
      | None => (s, nil)
      end
  end.

(** [a] comes no later than [b] under ORDER BY started_at DESC. *)
Definition newerFirst (a b : SyncHistory.t) : Prop :=
  SyncHistory.StartedAt b <= SyncHistory.StartedAt a.

Global Instance newerFirst_dec : RelDecision newerFirst.
Proof. intros a b. unfold newerFirst. apply _. Defined.

(** SELECT ... FROM sync_history ORDER BY started_at DESC LIMIT ? OFFSET ?;
    [scanOrder] is the order in which the server reads the rows, which
    settles the order of runs that started at the same time.  Every
    column of a stored row can be scanned. *)
Definition GetSyncHistory (ctx : Context.t) (fault : error)
    (scanOrder : list SyncHistory.t → list SyncHistory.t) (s : t)
    (limit offset : Z) : list SyncHistory.t * error :=
  match Sql.roundTrip ctx fault with
  | Some e => ([], Some e)
  | None =>
      if decide (limit < 0 ∨ offset < 0)
      then ([], Some MySQLStore.incorrectArguments)
      else
        (take (Z.to_nat limit)
           (drop (Z.to_nat offset)
              (merge_sort newerFirst (scanOrder (map_to_list s).*2))), nil)
  end.

End MySQLStoreHistory.

(** ** package sync: scheduler.go *)

Module Scheduler.

(** [triggerSync()]: the run is skipped when the manager reports
    [running]; the error of [Start] is logged and dropped. *)
Definition triggerSync (newCanalErr : error) (m : Manager.t) (s : MySQLStore.t)
    : Manager.t * MySQLStore.t :=
  let status := Manager.GetStatus m in
  if decide (status = "running") then (m, s)
  else (Manager.Start newCanalErr m s).1.

End Scheduler.

(** ** package api

    A request is its method and its path; of a response the status code
    and the body are kept (the headers are left out).  The handlers work
    on the manager behind [h.syncManager] and the store it holds. *)

Module Api.

Record Request := { Method : string; Path : string }.

Record Response := { StatusCode : Z; Body : string }.

Definition newline : string := String (ascii_of_N 10) EmptyString.

(** [json.NewEncoder(w).Encode(map[string]string{"status": v})]; the
    first write sends the status 200. *)
Definition encodeStatus (v : string) : Response :=
  {| StatusCode := 200;
     Body := Json.Marshal (Json.Map {[ "status" := Json.VString v ]}) +:+ newline |}.

(** [http.Error(w, msg, code)] *)
Definition httpError (msg : string) (code : Z) : Response :=
  {| StatusCode := code; Body := msg +:+ newline |}.

Definition HealthCheck (st : Manager.t * MySQLStore.t)
    : Manager.t * MySQLStore.t * Response :=
  (st, {| StatusCode := 200; Body := "OK" |}).

Definition TriggerSync (newCanalErr : error) (st : Manager.t * MySQLStore.t)
    : Manager.t * MySQLStore.t * Response :=
  match Manager.Start newCanalErr st.1 st.2 with
  | (m, s, Some err) => (m, s, httpError err 400)
  | (m, s, None) => (m, s, encodeStatus "started")
  end.

Definition StopSync (st : Manager.t * MySQLStore.t)
    : Manager.t * MySQLStore.t * Response :=
  (Manager.Stop st.1, st.2, encodeStatus "stopped").

Definition GetSyncStatus (st : Manager.t * MySQLStore.t)
    : Manager.t * MySQLStore.t * Response :=
  let status := Manager.GetStatus st.1 in
  (st, encodeStatus status).

(** What becomes of a request: a handler of this package replies, or the
    CORS middleware ends an OPTIONS request, or the router finds no
    handler and replies itself. *)
Inductive Served :=
  | Reply (r : Response)
  | Preflight
  | NoRoute.

(** [Routes()]: the CORS middleware wraps the whole router; the
    authentication middleware of [/api/v1] lets every request through. *)
Definition Routes (newCanalErr : error) (st : Manager.t * MySQLStore.t)
    (req : Request) : Manager.t * MySQLStore.t * Served :=
  let reply (r : Manager.t * MySQLStore.t * Response) := (r.1, Reply r.2) in
  if decide (Method req = "OPTIONS") then (st, Preflight)
  else if decide (Method req = "GET" ∧ Path req = "/health")
  then reply (HealthCheck st)
  else if decide (Method req = "POST" ∧ Path req = "/api/v1/sync/trigger")
  then reply (TriggerSync newCanalErr st)
  else if decide (Method req = "POST" ∧ Path req = "/api/v1/sync/stop")
  then reply (StopSync st)
  else if decide (Method req = "GET" ∧ Path req = "/api/v1/sync/status")
  then reply (GetSyncStatus st)
  else (st, NoRoute).

End Api.

(** ** Opening and closing the databases

    [database.NewDatabase], [store.NewMySQLStore], [sync.NewManager] and
    the [Close] methods, over the [*sql.DB] handles of the process.
    [sql.Open] makes a handle, which stays open until its [Close]; the
    handles are numbered in the order they are opened and kept with
    their data source name. *)

Module Handles.

Record t := {
  opened : nat;
  open : gmap nat string }.

Definition none : t := {| opened := 0; open := ∅ |}.

(** [sql.Open("mysql", dsn)], when it succeeds. *)
Definition Open (dsn : string) (hs : t) : nat * t :=
  (opened hs, {| opened := S (opened hs); open := <[opened hs := dsn]> (open hs) |}).

(** [db.Close()]; closing a closed handle does nothing. *)
Definition Close (h : nat) (hs : t) : t :=
  {| opened := opened hs; open := delete h (open hs) |}.

End Handles.

Module Connect.

(** The faults of one connection attempt: of [sql.Open], and of the
    [Ping] that follows. *)
Record Faults := { openErr : error; pingErr : error }.

Definition databaseDSN (cfg : Config.DatabaseConnection) : string :=
  Config.User cfg +:+ ":" +:+ Config.Password cfg +:+ "@tcp("
    +:+ Config.Host cfg +:+ ":" +:+ pretty (Config.Port cfg) +:+ ")/"
    +:+ Config.Database cfg +:+ "?parseTime=true&multiStatements=true".

(** [database.NewDatabase(cfg)] *)
Definition NewDatabase (f : Faults) (cfg : Config.DatabaseConnection)
    (hs : Handles.t) : Handles.t * (nat + string) :=
  match openErr f with
  | Some err => (hs, inr ("failed to open database connection: " +:+ err))
  | None =>
      let '(db, hs1) := Handles.Open (databaseDSN cfg) hs in
      match pingErr f with
      | Some err => (hs1, inr ("failed to ping database: " +:+ err))
      | None => (hs1, inl db)
      end
  end.

(** [config.StateStorage] *)
Record StateStorage := {
  Type_ : string;
  Host : string;
  Port : Z;
  User : string;
  Password : string;
  Database : string;
  FilePath : string }.

Definition storeDSN (cfg : StateStorage) : string :=
  User cfg +:+ ":" +:+ Password cfg +:+ "@tcp(" +:+ Host cfg +:+ ":"
    +:+ pretty (Port cfg) +:+ ")/" +:+ Database cfg +:+ "?parseTime=true".

Definition maxRetries : nat := 30.

(** The retry loop of [NewMySQLStore] from attempt [i] on, with [n]
    attempts left: [ping i] is the error of the ping of attempt [i];
    after a failed ping the loop sleeps one second.  It gives the number
    of seconds slept and the error the loop ends with. *)
Fixpoint pingLoop (ping : nat → error) (i n : nat) (err : error) : nat * error :=
  match n with
  | O => (0%nat, err)
  | S n' =>
      match ping i with
      | None => (0%nat, nil)
      | Some e =>
          let '(slept, err') := pingLoop ping (S i) n' (Some e) in
          (S slept, err')
      end
  end.

(** [store.NewMySQLStore(cfg)]; the third component is the time spent
    asleep, in seconds. *)
Definition NewMySQLStore (openErr : error) (ping : nat → error)
    (cfg : StateStorage) (hs : Handles.t) : Handles.t * (nat + string) * nat :=
  match openErr with
  | Some err => (hs, inr ("failed to open mysql connection: " +:+ err), 0%nat)
  | None =>
      let '(db, hs1) := Handles.Open (storeDSN cfg) hs in
      let '(slept, err) := pingLoop ping 0 maxRetries nil in
      match err with
      | Some e => (hs1, inr ("failed to ping mysql after retries: " +:+ e), slept)
      | None => (hs1, inl db, slept)
      end
  end.

(** The manager with the two handles [NewManager] gives it. *)
Record Manager := {
  manager : Manager.t;
  localDB : nat;
  cloudDB : nat }.

(** [sync.NewManager(cfg, store)] *)
Definition NewManager (fLocal fCloud : Faults) (cfg : Config.t)
    (hs : Handles.t) : Handles.t * (Manager + string) :=
  match NewDatabase fLocal (Config.Local (Config.Databases cfg)) hs with
  | (hs1, inr err) => (hs1, inr ("failed to connect to local db: " +:+ err))
  | (hs1, inl localDB) =>
      match NewDatabase fCloud (Config.Cloud (Config.Databases cfg)) hs1 with
      | (hs2, inr err) =>
          (Handles.Close localDB hs2,
           inr ("failed to connect to cloud db: " +:+ err))
      | (hs2, inl cloudDB) =>
          (hs2, inl {| manager := Manager.NewManager cfg;
                       localDB := localDB;
                       cloudDB := cloudDB |})
      end
  end.

(** [Manager.Close()] *)
Definition Close (m : Manager) (hs : Handles.t) : Manager * Handles.t :=
  ({| manager := Manager.Stop (manager m);
      localDB := localDB m;
      cloudDB := cloudDB m |},
   Handles.Close (cloudDB m) (Handles.Close (localDB m) hs)).

End Connect.

(** * The vocabulary of the properties *)

(** The row [CreateConflict] inserts. *)
Definition insertedRow (c : Conflict.t) : Conflict.t := {|
  Conflict.ID := Conflict.ID c;
  Conflict.TableName := Conflict.TableName c;
  Conflict.PrimaryKeyValue := Conflict.PrimaryKeyValue c;
  Conflict.LocalData := Conflict.LocalData c;
  Conflict.CloudData := Conflict.CloudData c;
  Conflict.ConflictType := Conflict.ConflictType c;
  Conflict.DetectedAt := Conflict.DetectedAt c;
  Conflict.Resolved := Conflict.Resolved c;
  Conflict.ResolutionStrategy := None;
  Conflict.ResolvedAt := None;
  Conflict.ResolvedData := None |}.

Section batch_vocabulary.
Import WorkerPool.

(** [range] visits every group once, in some order. *)
Definition visitsAll (env : Env) : Prop := ∀ l, rangeOrder env l ≡ₚ l.

(** The error of the transaction opened with faults [faults], if any:
    of the begin, or of the commit (the body has none). *)
Definition txErr (p : t) (faults : Sql.TxFaults) : error :=
  match Sql.roundTrip (ctx p) (Sql.beginErr faults) with
  | Some e => Some e
  | None => Sql.commitErr faults
  end.

Definition payload (events : list BinlogEvent.t) : Database.Tx :=
  {| Database.stmts := []; Database.covers := events |}.

(** The row [updateState] writes for [lastEvent]. *)
Definition positionRow (now : Z) (table : string) (lastEvent : BinlogEvent.t)
    : SyncState.t := {|
  SyncState.TableName := table;
  SyncState.LastSyncTime := Some (BinlogEvent.Timestamp lastEvent);
  SyncState.BinlogFile := Some (BinlogEvent.BinlogFile lastEvent);
  SyncState.BinlogPosition := Some (BinlogEvent.BinlogPos lastEvent);
  SyncState.RowsSynced := 0;
  SyncState.SyncDirection := "";
  SyncState.Status := "running";
  SyncState.ErrorMessage := None;
  SyncState.UpdatedAt := now |}.

(** Two worlds that agree on table [T]: same position row, same
    committed events. *)
Definition sameAt (T : string) (wd wd' : World) : Prop :=
  MySQLStore.sync_state (store wd') !! T = MySQLStore.sync_state (store wd) !! T
  ∧ committedFor T (targetDB wd') = committedFor T (targetDB wd).

(** Groups are sound for a batch [b] when each holds the events of its
    table in [b], in order. *)
Definition groupsOf (b : list BinlogEvent.t)
    (gs : list (string * list BinlogEvent.t)) : Prop :=
  ∀ T evs, (T, evs) ∈ gs → evs = ofTable T b.



(** The events the listener put into the queue during the moves, in
    log order. *)
Definition enqueued (mvs : list Move) : list BinlogEvent.t :=
  flat_map (λ mv, match mv with Enqueue e => [e] | _ => [] end) mvs.




End batch_vocabulary.

(** The order of log positions: file name first, then offset. *)
Definition posLe (p q : string * Z) : Prop :=
  p.1 ≠ q.1 ∧ String.le p.1 q.1 ∨ p.1 = q.1 ∧ (p.2 <= q.2)%Z.

Global Instance posLe_dec : RelDecision posLe.
Proof. intros p q. unfold posLe. apply _. Defined.


(** The position stored for a table, when its row has one. *)
Definition storedPosition (s : MySQLStore.t) (table : string)
    : option (string * Z) :=
  st ← MySQLStore.sync_state s !! table;
  f ← SyncState.BinlogFile st;
  o ← SyncState.BinlogPosition st;
  Some (f, o).

(** The position the specification has [Start] resume from: the smallest
    position stored for a configured table, if any has one.  The code has
    no counterpart of it. *)
Definition specResumePosition (s : MySQLStore.t)
    (tables : list Config.TableConfig) : option (string * Z) :=
  head (merge_sort posLe
          (omap (λ tc, storedPosition s (Config.Name tc)) tables)).

Section listener_vocabulary.
Import BinlogListener.

(** The listener [l] with [b] in its queue. *)
Definition queued (l : t) (b : list BinlogEvent.t) : t :=
  withChan l (Chan.withBuf (eventChan l) b).

End listener_vocabulary.

Section pipeline_vocabulary.
Import Pipeline.

(** What holds of the pipeline as long as nobody cancels: the queue is
    open and within its capacity, and the events delivered, then the
    events queued, then the events still to come from the source are the
    events of the source, in log order. *)
Definition inv (src : list (Canal.Position * Canal.RowsEvent))
    (allow : gset string) (s : t) : Prop :=
  BinlogListener.tables (listener s) = allow
  ∧ Context.Done (BinlogListener.ctx (listener s)) = false
  ∧ Chan.closed (BinlogListener.eventChan (listener s)) = false
  ∧ Chan.cap (BinlogListener.eventChan (listener s)) = 10000
  ∧ Z.of_nat (length (Chan.buf (BinlogListener.eventChan (listener s)))) <= 10000
  ∧ delivered s ++ Chan.buf (BinlogListener.eventChan (listener s))
      ++ omap (forwarded allow) (source s)
    = omap (forwarded allow) src.

End pipeline_vocabulary.

Section store_vocabulary.
Import MySQLStore.

(** A call of one of the writing methods of the store. *)
Inductive StoreCall :=
| CallUpdateSyncState (ctx : Context.t) (fault : error) (now : Z)
    (state : SyncState.t)
| CallCreateConflict (ctx : Context.t) (fault : error) (conflict : Conflict.t)
| CallResolveConflict (ctx : Context.t) (fault : error) (now : Z)
    (id strategy : string) (resolvedData : option string).

(** The store after the call. *)
Definition afterCall (s : t) (c : StoreCall) : t :=
  match c with
  | CallUpdateSyncState ctx fault now state =>
      (UpdateSyncState ctx fault now s state).1
  | CallCreateConflict ctx fault conflict =>
      (CreateConflict ctx fault s conflict).1
  | CallResolveConflict ctx fault now id strategy resolvedData =>
      (ResolveConflict ctx fault now s id strategy resolvedData).1.1
  end.

Definition afterCalls (s : t) (cs : list StoreCall) : t := foldl afterCall s cs.

(** The call writes the [sync_state] row of [table]. *)
Definition writesState (table : string) (c : StoreCall) : Prop :=
  match c with
  | CallUpdateSyncState _ _ _ state => SyncState.TableName state = table
  | _ => False
  end.

Global Instance writesState_dec table c : Decision (writesState table c).
Proof. destruct c; simpl; apply _. Defined.

(** The call resolves the conflict [id]. *)
Definition resolves (id : string) (c : StoreCall) : Prop :=
  match c with
  | CallResolveConflict _ _ _ id' _ _ => id' = id
  | _ => False
  end.

Global Instance resolves_dec id c : Decision (resolves id c).
Proof. destruct c; simpl; apply _. Defined.

(** The row [UpdateSyncState] leaves for [state] at time [now]. *)
Definition stateRow (now : Z) (state : SyncState.t) : SyncState.t := {|
  SyncState.TableName := SyncState.TableName state;
  SyncState.LastSyncTime := SyncState.LastSyncTime state;
  SyncState.BinlogFile := SyncState.BinlogFile state;
  SyncState.BinlogPosition := SyncState.BinlogPosition state;
  SyncState.RowsSynced := SyncState.RowsSynced state;
  SyncState.SyncDirection := SyncState.SyncDirection state;
  SyncState.Status := SyncState.Status state;
  SyncState.ErrorMessage := SyncState.ErrorMessage state;
  SyncState.UpdatedAt := now |}.

(** What of a conflict is settled when it is recorded. *)
Definition sameRecord (c row : Conflict.t) : Prop :=
  Conflict.ID row = Conflict.ID c
  ∧ Conflict.TableName row = Conflict.TableName c
  ∧ Conflict.PrimaryKeyValue row = Conflict.PrimaryKeyValue c
  ∧ Conflict.LocalData row = Conflict.LocalData c
  ∧ Conflict.CloudData row = Conflict.CloudData c
  ∧ Conflict.ConflictType row = Conflict.ConflictType c
  ∧ Conflict.DetectedAt row = Conflict.DetectedAt c.

(** No unresolved row carries resolution data. *)
Definition unresolvedBare (s : t) : Prop :=
  ∀ id row, conflicts s !! id = Some row →
    Conflict.Resolved row = false → Conflict.ResolvedData row = None.

End store_vocabulary.

Section history_vocabulary.
Import MySQLStoreHistory.

Inductive HistoryCall :=
| CallCreateSyncHistory (ctx : Context.t) (fault : error) (history : SyncHistory.t)
| CallUpdateSyncHistory (ctx : Context.t) (fault : error) (history : SyncHistory.t).

Definition afterHistoryCall (s : t) (c : HistoryCall) : t :=
  match c with
  | CallCreateSyncHistory ctx fault history =>
      (CreateSyncHistory ctx fault s history).1
  | CallUpdateSyncHistory ctx fault history =>
      (UpdateSyncHistory ctx fault s history).1
  end.

Definition afterHistoryCalls (s : t) (cs : list HistoryCall) : t :=
  foldl afterHistoryCall s cs.

End history_vocabulary.

Section pool_vocabulary.
Import WorkerPool.



(** The worker holds fewer events than the size at which it flushes. *)
Definition belowBatchSize (p : t) (w : Worker) : Prop :=
  Z.of_nat (length (batch w)) < Z.max 1 (batchSize p).

End pool_vocabulary.

Section manager_vocabulary.

(** What is called on the manager while the service runs: [Start] and
    [Stop], the tick of the scheduler, a request to the API. *)
Inductive ManagerCall :=
| CallStart (newCanalErr : error)
| CallStop
| CallTriggerSync (newCanalErr : error)
| CallServe (newCanalErr : error) (req : Api.Request).

Definition afterManagerCall (st : Manager.t * MySQLStore.t) (c : ManagerCall)
    : Manager.t * MySQLStore.t :=
  match c with
  | CallStart newCanalErr => (Manager.Start newCanalErr st.1 st.2).1
  | CallStop => (Manager.Stop st.1, st.2)
  | CallTriggerSync newCanalErr => Scheduler.triggerSync newCanalErr st.1 st.2
  | CallServe newCanalErr req => (Api.Routes newCanalErr st req).1
  end.

Definition afterManagerCalls (st : Manager.t * MySQLStore.t)
    (cs : list ManagerCall) : Manager.t * MySQLStore.t :=
  foldl afterManagerCall st cs.

(** The manager is either running, with a live listener on an open queue
    and a live pool, or idle, with listener and pool, if it has had any,
    cancelled and the queue closed.  ([close] of a closed queue would
    panic: [Stop] closes the queue of the listener when the status is
    [running].) *)
Definition lifecycle (m : Manager.t) : Prop :=
  match Manager.binlogListener m, Manager.workerPool m with
  | None, None => Manager.status m = "idle"
  | Some l, Some p =>
      Manager.status m = "running"
      ∧ Chan.closed (BinlogListener.eventChan l) = false
      ∧ Context.Done (BinlogListener.ctx l) = false
      ∧ Context.Done (WorkerPool.ctx p) = false
      ∨ Manager.status m = "idle"
        ∧ Chan.closed (BinlogListener.eventChan l) = true
        ∧ Context.Done (BinlogListener.ctx l) = true
        ∧ Context.Done (WorkerPool.ctx p) = true
  | _, _ => False
  end.

(** The call asks for a run to start, and the canal can be created. *)
Definition starts (c : ManagerCall) : bool :=
  match c with
  | CallStart None | CallTriggerSync None => true
  | CallServe None req =>
      bool_decide (Api.Method req = "POST" ∧ Api.Path req = "/api/v1/sync/trigger")
  | _ => false
  end.

(** The call asks for the run to stop. *)
Definition stops (c : ManagerCall) : bool :=
  match c with
  | CallStop => true
  | CallServe _ req =>
      bool_decide (Api.Method req = "POST" ∧ Api.Path req = "/api/v1/sync/stop")
  | _ => false
  end.

(** Whether a run is on after the calls, read off the calls alone. *)
Definition runningAfter (running : bool) (cs : list ManagerCall) : bool :=
  foldl (λ r c, if starts c then true else if stops c then false else r)
        running cs.

Definition statusOf (running : bool) : string :=
  if running then "running" else "idle".

End manager_vocabulary.

Section connect_vocabulary.
Import Connect.

(** Every open handle was opened by an earlier [sql.Open]. *)
Definition handlesOk (hs : Handles.t) : Prop :=
  ∀ h, is_Some (Handles.open hs !! h) → (h < Handles.opened hs)%nat.

End connect_vocabulary.

(** A lower-case hexadecimal digit. *)
Definition isHexDigit (c : ascii) : Prop :=
  c ∈ list_ascii_of_string "0123456789abcdef".

(** * Sample data *)

Definition row_a : list Json.entry :=
  [("name", Json.VString "A"); ("id", Json.VInt 1); ("updated_at", Json.VInt 1700000000)].

Definition row_a' : list Json.entry :=
  [("updated_at", Json.VInt 1700000000); ("name", Json.VString "A"); ("id", Json.VInt 1)].

Definition conflict_users_5 (id : string) : Conflict.t := {|
  Conflict.ID := id;
  Conflict.TableName := "users";
  Conflict.PrimaryKeyValue := "5";
  Conflict.LocalData := Some "{}";
  Conflict.CloudData := Some "null";
  Conflict.ConflictType := "data_mismatch";
  Conflict.DetectedAt := 1700000000;
  Conflict.Resolved := false;
  Conflict.ResolutionStrategy := None;
  Conflict.ResolvedAt := None;
  Conflict.ResolvedData := None |}.

Definition store_one_conflict : MySQLStore.t :=
  (MySQLStore.CreateConflict Context.Background nil MySQLStore.empty
     (conflict_users_5 "11111111-1111-4111-8111-111111111111")).1.

Definition users_1_local : Json.GoMap :=
  Json.Map (list_to_map [("id", Json.VInt 1); ("name", Json.VString "A");
                         ("updated_at", Json.VString "2024-01-01 10:00:00")]).

Definition users_1_cloud : Json.GoMap :=
  Json.Map (list_to_map [("id", Json.VInt 1); ("name", Json.VString "A");
                         ("updated_at", Json.VString "2024-01-01 10:00:07")]).

Definition users_5_local : Json.GoMap :=
  Json.Map (list_to_map [("id", Json.VInt 5); ("name", Json.VString "L");
                         ("updated_at", Json.VString "2024-01-01 10:00:00")]).

Definition users_5_cloud : Json.GoMap :=
  Json.Map (list_to_map [("id", Json.VInt 5); ("name", Json.VString "C");
                         ("updated_at", Json.VString "2024-01-01 10:00:07")]).

(** The conflict [DetectConflict] records for the two images above. *)
Definition conflict_lww : Conflict.t := {|
  Conflict.ID := "44444444-4444-4444-8444-444444444444";
  Conflict.TableName := "users";
  Conflict.PrimaryKeyValue := "5";
  Conflict.LocalData := Some (Json.Marshal users_5_local);
  Conflict.CloudData := Some (Json.Marshal users_5_cloud);
  Conflict.ConflictType := "data_mismatch";
  Conflict.DetectedAt := 1700000000;
  Conflict.Resolved := false;
  Conflict.ResolutionStrategy := None;
  Conflict.ResolvedAt := None;
  Conflict.ResolvedData := None |}.

(** A decoder that gives the two images back from their JSON texts and
    fails on every other text. *)
Definition decode_sample (bytes : string) : Json.GoMap * error :=
  if decide (bytes = Json.Marshal users_5_local) then (users_5_local, nil)
  else if decide (bytes = Json.Marshal users_5_cloud) then (users_5_cloud, nil)
  else (Json.NilMap, Some "unexpected end of JSON input").

Definition local_db : Config.DatabaseConnection := {|
  Config.Host := "127.0.0.1"; Config.Port := 3306;
  Config.User := "sync_user"; Config.Password := "pw";
  Config.Database := "myapp_local";
  Config.ReplicationUser := "repl_user"; Config.ReplicationPassword := "pw" |}.

Definition users_table : Config.TableConfig := {|
  Config.Name := "users"; Config.ConflictResolution := "last_write_wins";
  Config.BatchSize := 1000; Config.PrimaryKey := "id";
  Config.TimestampColumn := "updated_at" |}.

Definition config_users (workers : Z) : Config.t := {|
  Config.Databases := {| Config.Local := local_db; Config.Cloud := local_db |};
  Config.Sync := {| Config.Mode := "local_to_cloud";
                    Config.Tables := [users_table];
                    Config.Workers := workers;
                    Config.Realtime := true;
                    Config.BatchInsertSize := 1000 |} |}.

Definition position_row (table file : string) (offset rows : Z) : SyncState.t := {|
  SyncState.TableName := table;
  SyncState.LastSyncTime := Some 1700000000;
  SyncState.BinlogFile := Some file;
  SyncState.BinlogPosition := Some offset;
  SyncState.RowsSynced := rows;
  SyncState.SyncDirection := "";
  SyncState.Status := "running";
  SyncState.ErrorMessage := None;
  SyncState.UpdatedAt := 1700000000 |}.

Definition store_at (file : string) (offset : Z) : MySQLStore.t := {|
  MySQLStore.sync_state := {[ "users" := position_row "users" file offset 5 ]};
  MySQLStore.conflicts := ∅ |}.

Definition insert_at (table : string) (offset : Z) (rows : list (list Json.Value))
    : BinlogEvent.t := {|
  BinlogEvent.Type_ := BinlogEvent.Insert;
  BinlogEvent.Schema := "myapp_local";
  BinlogEvent.Table := table;
  BinlogEvent.Rows := rows;
  BinlogEvent.Timestamp := 1700000000 + offset;
  BinlogEvent.BinlogFile := "mysql-bin.000001";
  BinlogEvent.BinlogPos := offset |}.

Definition users_e1 : BinlogEvent.t :=
  insert_at "users" 120 [[Json.VInt 1; Json.VString "A"]; [Json.VInt 2; Json.VString "B"]].

Definition orders_e : BinlogEvent.t :=
  insert_at "orders" 180 [[Json.VInt 77; Json.VInt 1]].

Definition users_e2 : BinlogEvent.t :=
  insert_at "users" 240 [[Json.VInt 3; Json.VString "C"]].

Definition env_ok : WorkerPool.Env := {|
  WorkerPool.txFaults := λ _, Sql.noFaults;
  WorkerPool.storeFault := λ _, nil;
  WorkerPool.now := 1700000300;
  WorkerPool.rangeOrder := λ l, l |}.

(** The commit of the transaction for [orders] fails. *)
Definition env_orders_fail : WorkerPool.Env := {|
  WorkerPool.txFaults := λ T,
    if decide (T = "orders")
    then {| Sql.beginErr := nil;
            Sql.commitErr := Some "Error 1213: Deadlock found";
            Sql.rollbackErr := nil |}
    else Sql.noFaults;
  WorkerPool.storeFault := λ _, nil;
  WorkerPool.now := 1700000300;
  WorkerPool.rangeOrder := λ l, l |}.


Definition pool_of (n : Z) : WorkerPool.t :=
  WorkerPool.NewWorkerPool (Config.Sync (config_users n)).

Definition world_0 : WorkerPool.World := {|
  WorkerPool.eventChan := Chan.make 10000;
  WorkerPool.targetDB := {| Database.Config := local_db; Database.committed := [] |};
  WorkerPool.store := store_at "mysql-bin.000001" 4 |}.

Definition worker_with (b : list BinlogEvent.t) : WorkerPool.Worker :=
  {| WorkerPool.id := 0; WorkerPool.batch := b |}.

Definition row_event (table action : string) (n : Z) : Canal.RowsEvent := {|
  Canal.TableSchema := "myapp_local";
  Canal.TableName := table;
  Canal.Action := action;
  Canal.Rows := [[Json.VInt n]];
  Canal.HeaderTimestamp := 1700000000 + n |}.

Definition at_offset (n : Z) : Canal.Position :=
  {| Canal.Name := "mysql-bin.000001"; Canal.Pos := n |}.

Definition listener_users : BinlogListener.t :=
  {| BinlogListener.cfg := local_db;
     BinlogListener.canal := {|
       Canal.Addr := "127.0.0.1:3306";
       Canal.User := "repl_user";
       Canal.Password := "pw";
       Canal.Flavor := "mysql";
       Canal.ServerID := 100;
       Canal.DumpExecutionPath := "";
       Canal.IncludeTableRegex := ["^myapp_local\.users$"] |};
     BinlogListener.eventChan := Chan.make 10000;
     BinlogListener.ctx := Context.Background;
     BinlogListener.tables := {["users"]} |}.

Definition users_insert_120 : BinlogEvent.t := {|
  BinlogEvent.Type_ := BinlogEvent.Insert;
  BinlogEvent.Schema := "myapp_local";
  BinlogEvent.Table := "users";
  BinlogEvent.Rows := [[Json.VInt 1]];
  BinlogEvent.Timestamp := 1700000001;
  BinlogEvent.BinlogFile := "mysql-bin.000001";
  BinlogEvent.BinlogPos := 120 |}.

(** The queue of [listener_users], full of earlier events. *)
Definition full_listener : BinlogListener.t :=
  queued listener_users (replicate (Z.to_nat 10000) (insert_at "users" 4 [])).

Definition source_3 : list (Canal.Position * Canal.RowsEvent) :=
  [(at_offset 120, row_event "users" "insert" 1);
   (at_offset 180, row_event "audit_log" "insert" 2);
   (at_offset 240, row_event "users" "update" 3)].

Definition state_of (n : Z) : WorkerPool.State :=
  {| WorkerPool.pool := pool_of n; WorkerPool.world := world_0 |}.


Definition moves_single : list WorkerPool.Move :=
  [WorkerPool.Enqueue users_e1; WorkerPool.Enqueue orders_e;
   WorkerPool.Receive 0 env_ok; WorkerPool.Receive 0 env_ok;
   WorkerPool.Timer 0 env_ok; WorkerPool.Enqueue users_e2;
   WorkerPool.Receive 0 env_ok].

Definition state_single : WorkerPool.State := {|
  WorkerPool.pool := {|
    WorkerPool.workers := [{| WorkerPool.id := 0; WorkerPool.batch := [users_e2] |}];
    WorkerPool.ctx := Context.Background;
    WorkerPool.batchSize := 1000 |};
  WorkerPool.world := {|
    WorkerPool.eventChan := Chan.make 10000;
    WorkerPool.targetDB := {|
      Database.Config := local_db;
      Database.committed :=
        [ {| Database.stmts := []; Database.covers := [orders_e] |};
          {| Database.stmts := []; Database.covers := [users_e1] |} ] |};
    WorkerPool.store := {|
      MySQLStore.sync_state :=
        {[ "orders" := positionRow 1700000300 "orders" orders_e;
           "users" := positionRow 1700000300 "users" users_e1 ]};
      MySQLStore.conflicts := ∅ |} |} |}.

(** Calls that leave the [sync_state] row of [users] and the conflict
    [1111...] alone. *)
Definition store_calls_other : list StoreCall :=
  [CallUpdateSyncState Context.Background nil 1700000500
     (position_row "orders" "mysql-bin.000002" 300 1);
   CallCreateConflict Context.Background nil
     (conflict_users_5 "22222222-2222-4222-8222-222222222222");
   CallCreateConflict Context.Background nil
     (conflict_users_5 "11111111-1111-4111-8111-111111111111");
   CallResolveConflict Context.Background nil 1700000600
     "22222222-2222-4222-8222-222222222222" "manual" (Some "{}")].

Definition run_at (id : string) (started : Z) : SyncHistory.t := {|
  SyncHistory.ID := id;
  SyncHistory.StartedAt := started;
  SyncHistory.CompletedAt := None;
  SyncHistory.Direction := "local_to_cloud";
  SyncHistory.TablesSynced := "users";
  SyncHistory.TotalRows := 0;
  SyncHistory.ConflictsDetected := 0;
  SyncHistory.Status := "running";
  SyncHistory.ErrorMessage := None |}.

(** The same run as it is reported when it ends. *)
Definition run_done (id : string) (completed rows : Z) : SyncHistory.t := {|
  SyncHistory.ID := id;
  SyncHistory.StartedAt := 0;
  SyncHistory.CompletedAt := Some completed;
  SyncHistory.Direction := "";
  SyncHistory.TablesSynced := "";
  SyncHistory.TotalRows := rows;
  SyncHistory.ConflictsDetected := 0;
  SyncHistory.Status := "completed";
  SyncHistory.ErrorMessage := None |}.

Definition history_two : MySQLStoreHistory.t :=
  {[ "run-1" := run_at "run-1" 1700000000;
     "run-2" := run_at "run-2" 1700003600 ]}.

Definition history_three : MySQLStoreHistory.t :=
  <[ "run-0" := run_at "run-0" 1699990000 ]> history_two.

Definition history_calls : list HistoryCall :=
  [CallUpdateSyncHistory Context.Background nil (run_done "run-1" 1700000900 42);
   CallCreateSyncHistory Context.Background nil (run_at "run-1" 1700007200);
   CallCreateSyncHistory Context.Background nil (run_at "run-3" 1700007200);
   CallUpdateSyncHistory Context.Background nil (run_done "run-9" 1700000900 1)].

Definition state_storage : Connect.StateStorage := {|
  Connect.Type_ := "mysql";
  Connect.Host := "127.0.0.1";
  Connect.Port := 3307;
  Connect.User := "sync_user";
  Connect.Password := "pw";
  Connect.Database := "sync_state";
  Connect.FilePath := "" |}.

(** The state database comes up while the service waits: the first three
    pings are refused. *)
Definition ping_up_at_3 (i : nat) : error :=
  if (i <? 3)%nat then Some "dial tcp 127.0.0.1:3307: connect: connection refused"
  else nil.

Definition connects : Connect.Faults :=
  {| Connect.openErr := nil; Connect.pingErr := nil |}.

Definition unreachable : Connect.Faults :=
  {| Connect.openErr := nil;
     Connect.pingErr := Some "dial tcp: i/o timeout" |}.

(** The handles of a process that has opened its state store. *)
Definition handles_store : Handles.t :=
  (Handles.Open (Connect.storeDSN state_storage) Handles.none).2.

Definition lifecycle_calls : list ManagerCall :=
  [CallServe nil {| Api.Method := "POST"; Api.Path := "/api/v1/sync/trigger" |};
   CallTriggerSync nil;
   CallServe nil {| Api.Method := "GET"; Api.Path := "/api/v1/sync/status" |};
   CallStop;
   CallStop;
   CallStart (Some "invalid flavor");
   CallStart nil].

(** * Properties *)

(** ** The hash, on the standard test vectors *)

Example Sum256_empty :
  Fmt.hex (SHA256.Sum256 "")
  = "e3b0c44298fc1c149afbf4c8996fb92427ae41e4649b934ca495991b7852b855".
Proof. vm_compute. reflexivity. Qed.

Example Sum256_abc :
  Fmt.hex (SHA256.Sum256 "abc")
  = "ba7816bf8f01cfea414140de5dae2223b00361a396177a9cb410ff61f20015ad".
Proof. vm_compute. reflexivity. Qed.

Example Sum256_two_blocks :
  Fmt.hex (SHA256.Sum256 "abcdbcdecdefdefgefghfghighijhijkijkljklmklmnlmnomnopnopq")
  = "248d6a61d20638b8e5c026930c3e6039a33ce45964ff2167f6ecedd419db06c1".
Proof. vm_compute. reflexivity. Qed.

(** The JSON text has its keys in byte order and escapes the characters
    the encoder escapes. *)
Example Marshal_sorted_and_escaped :
  Json.Marshal (Json.Map (list_to_map
    [("name", Json.VString "A<b"); ("id", Json.VInt (-5)); ("z", Json.VNull);
     ("Zed", Json.VBool true)]))
  = "{" +:+ Json.quote +:+ "Zed" +:+ Json.quote +:+ ":true,"
        +:+ Json.quote +:+ "id" +:+ Json.quote +:+ ":-5,"
        +:+ Json.quote +:+ "name" +:+ Json.quote +:+ ":"
        +:+ Json.quote +:+ "A\u003cb" +:+ Json.quote +:+ ","
        +:+ Json.quote +:+ "z" +:+ Json.quote +:+ ":null}"
  ∧ Json.Marshal (Json.Map ∅) = "{}"
  ∧ Json.Marshal Json.NilMap = "null".
Proof. vm_compute. by split_and!. Qed.

(** ** Canonical JSON text of a row image *)

Section canonical.
Import Json.

Lemma key_le_trans : Transitive key_le.
Proof. intros x y z. unfold key_le. apply transitivity. Qed.

Lemma key_le_total : Total key_le.
Proof. intros x y. unfold key_le. apply total, _. Qed.

(** Two entries of a list with distinct keys that carry the same key are
    the same entry. *)
Lemma entry_of_key (l : list entry) (x y : entry) :
  NoDup l.*1 → x ∈ l → y ∈ l → x.1 = y.1 → x = y.
Proof.
  induction l as [|z l IH]; intros Hnd Hx Hy Hk; [by apply elem_of_nil in Hx|].
  apply NoDup_cons in Hnd as [Hz Hnd].
  apply elem_of_cons in Hx as [->|Hx]; apply elem_of_cons in Hy as [->|Hy].
  - done.
  - exfalso. apply Hz. rewrite Hk. by apply list_elem_of_fmap_2.
  - exfalso. apply Hz. rewrite <- Hk. by apply list_elem_of_fmap_2.
  - by apply IH.
Qed.

Lemma canonical_perm (l : list entry) : canonical l ≡ₚ l.
Proof. apply merge_sort_Permutation. Qed.

Lemma canonical_sorted (l : list entry) : StronglySorted key_le (canonical l).
Proof.
  apply StronglySorted_merge_sort; [apply key_le_trans | apply key_le_total].
Qed.

(** A key-sorted arrangement of entries with distinct keys is unique. *)
Lemma sorted_entries_unique (l1 l2 : list entry) :
  NoDup l1.*1 → StronglySorted key_le l1 → StronglySorted key_le l2 →
  l1 ≡ₚ l2 → l1 = l2.
Proof.
  intros Hnd S1 S2 Hp. apply (StronglySorted_unique_strong key_le); try done.
  intros x1 x2 H1 H2 H12 H21.
  apply (entry_of_key l1); [done|done|by rewrite Hp|].
  unfold key_le in *. by apply (anti_symm String.le).
Qed.

Lemma canonical_order_free (l l' : list entry) :
  NoDup l.*1 → l ≡ₚ l' → canonical l' = canonical l.
Proof.
  intros Hnd Hp. symmetry. apply sorted_entries_unique.
  - by rewrite canonical_perm.
  - apply canonical_sorted.
  - apply canonical_sorted.
  - by rewrite !canonical_perm.
Qed.

Lemma canonical_idem (l : list entry) :
  NoDup l.*1 → canonical (canonical l) = canonical l.
Proof.
  intros Hnd. apply canonical_order_free; [done|].
  symmetry. apply canonical_perm.
Qed.

(** The JSON text of a map built from entries with distinct keys is the
    text of the sorted entries, whatever the order they were put in. *)
Lemma Marshal_of_entries (l : list entry) :
  NoDup l.*1 → Marshal (Map (list_to_map l)) = encodeObject l.
Proof.
  intros Hnd. unfold Marshal, encodeObject.
  rewrite (canonical_order_free l (map_to_list (list_to_map l))); [done..|].
  symmetry. by apply map_to_list_to_map.
Qed.
End canonical.

(** C9.  Canonicalization is stable: for a row image given as entries with
    distinct column names, putting the canonical form through
    canonicalization again gives the same thing, and giving the entries in
    another order changes neither the canonical form, nor the JSON text,
    nor the hash [calculateHash] computes. *)
Theorem canonical_stable (l l' : list Json.entry) :
  NoDup l.*1 → l ≡ₚ l' →
  Json.canonical (Json.canonical l) = Json.canonical l
  ∧ Json.canonical l' = Json.canonical l
  ∧ Json.Marshal (Json.Map (list_to_map l')) = Json.Marshal (Json.Map (list_to_map l))
  ∧ ConflictManager.calculateHash (Json.Map (list_to_map l'))
    = ConflictManager.calculateHash (Json.Map (list_to_map l)).
Proof.
  intros Hnd Hp.
  assert (Hnd' : NoDup l'.*1) by (by rewrite <- Hp).
  assert (Json.Marshal (Json.Map (list_to_map l'))
          = Json.Marshal (Json.Map (list_to_map l))) as HM.
  { rewrite !Marshal_of_entries by done. unfold Json.encodeObject.
    by rewrite (canonical_order_free l l'). }
  split_and!.
  - by apply canonical_idem.
  - by apply canonical_order_free.
  - done.
  - unfold ConflictManager.calculateHash. by rewrite HM.
Qed.

Lemma canonical_stable_witness :
  Json.canonical (Json.canonical row_a) = Json.canonical row_a
  ∧ Json.canonical row_a' = Json.canonical row_a
  ∧ Json.Marshal (Json.Map (list_to_map row_a')) = Json.Marshal (Json.Map (list_to_map row_a))
  ∧ ConflictManager.calculateHash (Json.Map (list_to_map row_a'))
    = ConflictManager.calculateHash (Json.Map (list_to_map row_a)).
Proof.
  apply (canonical_stable row_a row_a').
  - apply (bool_decide_unpack _). vm_compute. reflexivity.
  - apply (bool_decide_unpack _). vm_compute. reflexivity.
Defined.

(** ** The conflicts table *)

(** C10.  Resolving an id that names no conflict succeeds: the call
    returns no error, the UPDATE touches zero rows and the state database
    is what it was. *)
Theorem ResolveConflict_unknown_id (ctx : Context.t) (now : Z) (s : MySQLStore.t)
    (id strategy : string) (resolvedData : option string) :
  Context.Done ctx = false →
  MySQLStore.conflicts s !! id = None →
  MySQLStore.ResolveConflict ctx nil now s id strategy resolvedData = (s, 0%nat, nil).
Proof.
  intros Hctx Hid. unfold MySQLStore.ResolveConflict, Sql.roundTrip.
  by rewrite Hctx, Hid.
Qed.

Lemma ResolveConflict_unknown_id_witness :
  MySQLStore.ResolveConflict Context.Background nil 1700000100 store_one_conflict
    "no-such-id" "manual" (Some "{}")
  = (store_one_conflict, 0%nat, nil).
Proof.
  apply (ResolveConflict_unknown_id Context.Background 1700000100
           store_one_conflict "no-such-id" "manual" (Some "{}")).
  - reflexivity.
  - vm_compute. reflexivity.
Defined.

(** A known id is resolved in place (for contrast with the above). *)
Lemma ResolveConflict_known_id (ctx : Context.t) (now : Z) (s : MySQLStore.t)
    (id strategy : string) (resolvedData : option string) (c : Conflict.t) :
  Context.Done ctx = false →
  MySQLStore.conflicts s !! id = Some c →
  ∃ s', MySQLStore.ResolveConflict ctx nil now s id strategy resolvedData
        = (s', 1%nat, nil)
        ∧ MySQLStore.conflicts s' !! id
          = Some (MySQLStore.resolveRow strategy resolvedData now c).
Proof.
  intros Hctx Hid. unfold MySQLStore.ResolveConflict, Sql.roundTrip.
  rewrite Hctx, Hid. eexists; split; [done|]. simpl. by rewrite lookup_insert_eq.
Qed.

(** C5, as stated, fails: with one unresolved conflict recorded for
    [("users", "5")], creating another one for the same table and key
    under a fresh id returns no error, and the table then holds two
    unresolved conflicts for that key. *)
Lemma CreateConflict_second_unresolved :
  let c2 := conflict_users_5 "22222222-2222-4222-8222-222222222222" in
  let r := MySQLStore.CreateConflict Context.Background nil store_one_conflict c2 in
  length (MySQLStore.unresolvedFor store_one_conflict "users" "5") = 1%nat
  ∧ r.2 = nil
  ∧ length (MySQLStore.unresolvedFor r.1 "users" "5") = 2%nat.
Proof. vm_compute. by split_and!. Qed.

(** C5, amended.  [CreateConflict] is keyed by [id] alone: it fails
    exactly when a row with that id exists, whatever conflicts are already
    recorded for the same table and key; when it succeeds the row is added
    and every earlier row stays, so an unresolved conflict for a table and
    key adds one to the unresolved conflicts of that table and key. *)
Theorem CreateConflict_keyed_by_id (ctx : Context.t) (s : MySQLStore.t)
    (c : Conflict.t) :
  Context.Done ctx = false →
  match MySQLStore.conflicts s !! Conflict.ID c with
  | Some _ =>
      MySQLStore.CreateConflict ctx nil s c
      = (s, Some (MySQLStore.duplicateEntry (Conflict.ID c)))
  | None =>
      ∃ s', MySQLStore.CreateConflict ctx nil s c = (s', nil)
        ∧ MySQLStore.conflicts s'
          = <[Conflict.ID c := insertedRow c]> (MySQLStore.conflicts s)
        ∧ (Conflict.Resolved c = false →
           MySQLStore.unresolvedFor s' (Conflict.TableName c) (Conflict.PrimaryKeyValue c)
           ≡ₚ insertedRow c
              :: MySQLStore.unresolvedFor s (Conflict.TableName c) (Conflict.PrimaryKeyValue c))
  end.
Proof.
  intros Hctx. unfold MySQLStore.CreateConflict, Sql.roundTrip. rewrite Hctx.
  destruct (MySQLStore.conflicts s !! Conflict.ID c) eqn:Hid; [done|].
  eexists; split_and!; [done..|]. intros Hres.
  unfold MySQLStore.unresolvedFor; simpl. fold (insertedRow c).
  rewrite (map_to_list_insert _ _ _ Hid). rewrite fmap_cons, filter_cons. simpl.
  rewrite decide_True; done.
Qed.

Lemma CreateConflict_keyed_by_id_witness :
  ∃ s', MySQLStore.CreateConflict Context.Background nil store_one_conflict
          (conflict_users_5 "22222222-2222-4222-8222-222222222222") = (s', nil)
    ∧ MySQLStore.conflicts s'
      = <["22222222-2222-4222-8222-222222222222" :=
            insertedRow (conflict_users_5 "22222222-2222-4222-8222-222222222222")]>
          (MySQLStore.conflicts store_one_conflict)
    ∧ (false = false →
       MySQLStore.unresolvedFor s' "users" "5"
       ≡ₚ insertedRow (conflict_users_5 "22222222-2222-4222-8222-222222222222")
          :: MySQLStore.unresolvedFor store_one_conflict "users" "5").
Proof.
  exact (CreateConflict_keyed_by_id Context.Background store_one_conflict
           (conflict_users_5 "22222222-2222-4222-8222-222222222222") eq_refl).
Defined.

(** ** Conflict detection and resolution *)

(** [DetectConflict] compares the hashes of the complete images: it
    reports a conflict exactly when they differ, and then hands back an
    unresolved [data_mismatch] record carrying both JSON texts. *)
Lemma DetectConflict_verdict (id : string) (now : Z) (table pk : string)
    (localData cloudData : Json.GoMap) :
  (ConflictManager.DetectConflict id now table pk localData cloudData).1 = false
  ↔ ConflictManager.calculateHash localData = ConflictManager.calculateHash cloudData.
Proof.
  unfold ConflictManager.DetectConflict.
  destruct (decide (_ = _)) as [E|E]; simpl; split; try done.
Qed.

(** C6.  The hash covers every column of the image, [updated_at]
    included: two images of the same row that differ in [updated_at] only
    are reported as a conflict. *)
Theorem DetectConflict_counts_every_column :
  Json.Marshal users_1_local
    = "{" +:+ Json.quote +:+ "id" +:+ Json.quote +:+ ":1,"
        +:+ Json.quote +:+ "name" +:+ Json.quote +:+ ":" +:+ Json.quote +:+ "A" +:+ Json.quote +:+ ","
        +:+ Json.quote +:+ "updated_at" +:+ Json.quote +:+ ":"
        +:+ Json.quote +:+ "2024-01-01 10:00:00" +:+ Json.quote +:+ "}"
  ∧ ConflictManager.calculateHash users_1_local
    ≠ ConflictManager.calculateHash users_1_cloud
  ∧ (ConflictManager.DetectConflict "33333333-3333-4333-8333-333333333333"
       1700000000 "users" "1" users_1_local users_1_cloud).1 = true.
Proof.
  split_and!.
  - vm_compute. reflexivity.
  - vm_compute. discriminate.
  - vm_compute. reflexivity.
Qed.

(** C7.  [LastWriteWinsStrategy.Resolve] returns the local image and no
    error whatever the conflict holds: neither the cloud image nor the
    timestamp column has a part in the result.  On the conflict recorded
    for two images of [users] row 5, the cloud one with the later
    [updated_at], it returns the local image. *)
Theorem Resolve_returns_local :
  (∀ (unmarshal : string → Json.GoMap * error) (s : LastWriteWinsStrategy.t)
     (conflict : Conflict.t),
     LastWriteWinsStrategy.Resolve unmarshal s conflict
     = ((unmarshal (LastWriteWinsStrategy.rawBytes (Conflict.LocalData conflict))).1,
        nil))
  ∧ ConflictManager.DetectConflict "44444444-4444-4444-8444-444444444444"
      1700000000 "users" "5" users_5_local users_5_cloud
    = (true, Some conflict_lww)
  ∧ LastWriteWinsStrategy.Resolve decode_sample
      {| LastWriteWinsStrategy.TimestampColumn := "updated_at" |} conflict_lww
    = (users_5_local, nil).
Proof.
  split_and!.
  - reflexivity.
  - vm_compute. reflexivity.
  - vm_compute. reflexivity.
Qed.

(** ** Starting the manager *)

(** [Start] never reads its state database argument. *)
Lemma Start_store_independent (newCanalErr : error) (m : Manager.t)
    (s1 s2 : MySQLStore.t) :
  (Manager.Start newCanalErr m s1).1.1 = (Manager.Start newCanalErr m s2).1.1
  ∧ (Manager.Start newCanalErr m s1).2 = (Manager.Start newCanalErr m s2).2
  ∧ (Manager.Start newCanalErr m s1).1.2 = s1.
Proof.
  unfold Manager.Start.
  destruct (decide (Manager.status m = "running")); [done|].
  destruct (BinlogListener.NewBinlogListener _ _ _) as [[l|] err]; [|done].
  destruct (BinlogListener.Start l); done.
Qed.

(** C1.  [Start] does not consult the state database: the listener and
    the pool it builds, the status and the error are the same whatever
    positions are stored, and the state database is left as it is.  With
    the position of [users] stored as [mysql-bin.000003:4521] or as
    [mysql-bin.000007:120] the manager starts the same listener, so
    nothing read off the listener gives back the smallest stored
    position. *)
Theorem Start_ignores_stored_positions :
  (∀ (newCanalErr : error) (m : Manager.t) (s1 s2 : MySQLStore.t),
     (Manager.Start newCanalErr m s1).1.1 = (Manager.Start newCanalErr m s2).1.1
     ∧ (Manager.Start newCanalErr m s1).2 = (Manager.Start newCanalErr m s2).2
     ∧ (Manager.Start newCanalErr m s1).1.2 = s1)
  ∧ specResumePosition (store_at "mysql-bin.000003" 4521) [users_table]
    = Some ("mysql-bin.000003", 4521)
  ∧ specResumePosition (store_at "mysql-bin.000007" 120) [users_table]
    = Some ("mysql-bin.000007", 120)
  ∧ ¬ ∃ resumeAt : BinlogListener.t → option (string * Z),
        ∀ s, resumeAt
               <$> Manager.binlogListener
                     (Manager.Start nil (Manager.NewManager (config_users 8)) s).1.1
             = Some (specResumePosition s [users_table]).
Proof.
  split_and!; [apply Start_store_independent|by vm_compute..|].
  intros [resumeAt H].
  pose proof (H (store_at "mysql-bin.000003" 4521)) as H1.
  pose proof (H (store_at "mysql-bin.000007" 120)) as H2.
  destruct (Start_store_independent nil (Manager.NewManager (config_users 8))
              (store_at "mysql-bin.000003" 4521) (store_at "mysql-bin.000007" 120))
    as (E & _ & _).
  rewrite E in H1. rewrite H1 in H2. vm_compute in H2. discriminate.
Qed.

(** ** One batch of one worker *)

Section process_batch.
Import WorkerPool.

Lemma applyBody_eq (events : list BinlogEvent.t) :
  applyBody events Database.emptyTx = (payload events, nil).
Proof.
  unfold applyBody, payload. f_equal.
  assert (∀ tx, foldl (λ tx e, {| Database.stmts := Database.stmts tx;
                                  Database.covers := Database.covers tx ++ [e] |})
                  tx events
                = {| Database.stmts := Database.stmts tx;
                     Database.covers := Database.covers tx ++ events |}) as H.
  { induction events as [|e events IH]; intros [st cv]; simpl.
    - by rewrite app_nil_r.
    - rewrite IH. simpl. by rewrite <- app_assoc. }
  by rewrite H.
Qed.

Lemma applyChanges_eq (p : t) (faults : Sql.TxFaults) (d : Database.t)
    (T : string) (events : list BinlogEvent.t) :
  applyChanges p faults d T events
  = match txErr p faults with
    | Some e => (d, Some e)
    | None => (Database.commit d (payload events), nil)
    end.
Proof.
  unfold applyChanges, Database.ExecTx, txErr. rewrite applyBody_eq.
  destruct (Sql.roundTrip _ _); [done|].
  by destruct (Sql.commitErr faults).
Qed.

(** Whether the transaction of a table fails depends on the context and
    the faults alone. *)
Lemma applyChanges_fails_iff (p : t) (faults : Sql.TxFaults) (d : Database.t)
    (T : string) (events : list BinlogEvent.t) :
  (applyChanges p faults d T events).2 ≠ nil ↔ txErr p faults ≠ None.
Proof. rewrite applyChanges_eq. by destruct (txErr p faults). Qed.

(** A transaction that ends in an error leaves the target as it was. *)
Lemma ExecTx_error_rolls_back (c : Context.t) (faults : Sql.TxFaults)
    (d d' : Database.t) (fn : Database.Tx → Database.Tx * error) (err : string) :
  Database.ExecTx c faults d fn = (d', Some err) → d' = d.
Proof.
  unfold Database.ExecTx.
  destruct (Sql.roundTrip _ _); [by intros [= <- _]|].
  destruct (fn Database.emptyTx) as [tx [e|]].
  - destruct (Sql.rollbackErr faults); by intros [= <- _].
  - destruct (Sql.commitErr faults); [by intros [= <- _]|done].
Qed.

Lemma committedFor_commit (T : string) (d : Database.t) (events : list BinlogEvent.t) :
  committedFor T (Database.commit d (payload events))
  = committedFor T d ++ ofTable T events.
Proof.
  unfold committedFor, ofTable, Database.commit; simpl.
  rewrite flat_map_app, filter_app. simpl. by rewrite app_nil_r.
Qed.

Lemma updateState_eq (p : t) (fault : error) (now : Z) (s : MySQLStore.t)
    (table : string) (lastEvent : BinlogEvent.t) :
  updateState p fault now s table lastEvent
  = match Sql.roundTrip (ctx p) fault with
    | Some _ => s
    | None =>
        {| MySQLStore.sync_state :=
             <[table := positionRow now table lastEvent]> (MySQLStore.sync_state s);
           MySQLStore.conflicts := MySQLStore.conflicts s |}
    end.
Proof.
  unfold updateState, MySQLStore.UpdateSyncState.
  by destruct (Sql.roundTrip _ _).
Qed.

Lemma txErr_None_ctx (p : t) (faults : Sql.TxFaults) :
  txErr p faults = None → Context.Done (ctx p) = false.
Proof.
  unfold txErr, Sql.roundTrip. by destruct (Context.Done (ctx p)).
Qed.

Lemma sameAt_refl T wd : sameAt T wd wd.
Proof. by split. Qed.

Lemma sameAt_trans T wd1 wd2 wd3 :
  sameAt T wd1 wd2 → sameAt T wd2 wd3 → sameAt T wd1 wd3.
Proof. intros [A B] [C D]. split; congruence. Qed.

Variables (env : Env) (p : t).


(** A group of another table leaves [T] alone. *)
Lemma processGroup_other (T T' : string) (evs : list BinlogEvent.t) (wd : World) :
  T ≠ T' → ofTable T evs = [] →
  sameAt T wd (processGroup env p wd (T', evs)).
Proof.
  intros Hne Hevs. unfold processGroup. rewrite applyChanges_eq.
  destruct (txErr p (txFaults env T')); [by split|].
  assert (committedFor T (Database.commit (targetDB wd) (payload evs))
          = committedFor T (targetDB wd)) as HC.
  { by rewrite committedFor_commit, Hevs, app_nil_r. }
  destruct (last evs) as [le|]; split; simpl; try done.
  rewrite updateState_eq. destruct (Sql.roundTrip _ _); [done|]. simpl.
  by rewrite lookup_insert_ne.
Qed.

(** The group of [T] itself. *)
Lemma processGroup_same (T : string) (evs : list BinlogEvent.t) (wd : World) :
  ofTable T evs = evs →
  let wd' := processGroup env p wd (T, evs) in
  match txErr p (txFaults env T) with
  | Some _ => sameAt T wd wd'
  | None =>
      committedFor T (targetDB wd') = committedFor T (targetDB wd) ++ evs
      ∧ MySQLStore.sync_state (store wd') !! T
        = match last evs, storeFault env T with
          | Some lastEvent, None => Some (positionRow (now env) T lastEvent)
          | _, _ => MySQLStore.sync_state (store wd) !! T
          end
  end.
Proof.
  intros Hevs. simpl. unfold processGroup. rewrite applyChanges_eq.
  destruct (txErr p (txFaults env T)) eqn:Htx; [by split|].
  apply txErr_None_ctx in Htx.
  assert (committedFor T (Database.commit (targetDB wd) (payload evs))
          = committedFor T (targetDB wd) ++ evs) as HC.
  { by rewrite committedFor_commit, Hevs. }
  destruct (last evs) as [le|]; simpl; [|done]. split; [done|].
  rewrite updateState_eq. unfold Sql.roundTrip. rewrite Htx.
  destruct (storeFault env T); [done|]. simpl. by rewrite lookup_insert_eq.
Qed.

Lemma ofTable_ofTable (T T' : string) (b : list BinlogEvent.t) :
  ofTable T (ofTable T' b) = if decide (T = T') then ofTable T b else [].
Proof.
  unfold ofTable. induction b as [|e b IH]; [by case_decide|].
  rewrite (filter_cons _ e b).
  destruct (decide (BinlogEvent.Table e = T')) as [E1|E1].
  - rewrite filter_cons, IH. destruct (decide (T = T')) as [->|E2].
    + by rewrite filter_cons, !decide_True.
    + rewrite decide_False; [done|congruence].
  - rewrite IH. destruct (decide (T = T')) as [->|E2]; [|done].
    by rewrite filter_cons, decide_False.
Qed.


Lemma foldl_processGroup_other (b : list BinlogEvent.t) (T : string)
    (gs : list (string * list BinlogEvent.t)) (wd : World) :
  groupsOf b gs → T ∉ gs.*1 →
  sameAt T wd (foldl (processGroup env p) wd gs).
Proof.
  revert wd. induction gs as [|[T' evs] gs IH]; intros wd Hgs HT; simpl.
  { apply sameAt_refl. }
  rewrite fmap_cons, not_elem_of_cons in HT. destruct HT as [Hne HT].
  eapply sameAt_trans; [|apply IH; [|done]].
  - apply processGroup_other; [done|].
    rewrite (Hgs T' evs) by left. rewrite ofTable_ofTable.
    by rewrite decide_False.
  - intros ???. apply Hgs. by right.
Qed.

(** The loop over the groups, seen from table [T]: the groups before
    that of [T] leave [T] alone, then comes the group of [T], then the
    groups after it leave [T] alone. *)
Lemma foldl_processGroup_at (b : list BinlogEvent.t) (T : string)
    (evs : list BinlogEvent.t) (gs : list (string * list BinlogEvent.t))
    (wd : World) :
  groupsOf b gs → NoDup gs.*1 → (T, evs) ∈ gs →
  ∃ wd1, sameAt T wd wd1
         ∧ sameAt T (processGroup env p wd1 (T, evs))
                    (foldl (processGroup env p) wd gs).
Proof.
  intros Hgs Hnd Hin.
  apply list_elem_of_split in Hin as (g1 & g2 & ->).
  rewrite fmap_app, fmap_cons in Hnd. simpl in Hnd.
  apply NoDup_app in Hnd as (_ & H1 & Hnd).
  apply NoDup_cons in Hnd as [H2 _].
  exists (foldl (processGroup env p) wd g1). split.
  - apply (foldl_processGroup_other b).
    + intros ???. apply Hgs. apply elem_of_app. by left.
    + intros Hin. apply (H1 _ Hin). by left.
  - rewrite foldl_app. simpl. apply (foldl_processGroup_other b); [|done].
    intros ???. apply Hgs. apply elem_of_app. right. by right.
Qed.

End process_batch.

Section process_batch_groups.
Import WorkerPool.

Lemma ofTable_snoc (T : string) (b : list BinlogEvent.t) (e : BinlogEvent.t) :
  ofTable T (b ++ [e])
  = ofTable T b ++ (if decide (BinlogEvent.Table e = T) then [e] else []).
Proof.
  unfold ofTable. rewrite filter_app, filter_cons, filter_nil.
  by destruct (decide _).
Qed.

(** The group of a table is the events of that table in the batch, in
    the order of the batch; a table without events has no group. *)
Lemma groupByTable_lookup (b : list BinlogEvent.t) (T : string) :
  groupByTable b !! T
  = if decide (ofTable T b = []) then None else Some (ofTable T b).
Proof.
  induction b as [|e b IH] using rev_ind.
  { by rewrite decide_True. }
  unfold groupByTable in *. rewrite foldl_snoc, ofTable_snoc.
  destruct (decide (BinlogEvent.Table e = T)) as [<-|Hne].
  - rewrite lookup_insert_eq, IH.
    rewrite (decide_False (P := _ ++ [e] = [])).
    + by destruct (decide (ofTable _ b = [])) as [->|].
    + intros H. by apply app_eq_nil in H as [_ ?].
  - rewrite lookup_insert_ne by done. by rewrite app_nil_r.
Qed.

Lemma groupByTable_groups (env : Env) (b : list BinlogEvent.t) :
  visitsAll env →
  let gs := rangeOrder env (map_to_list (groupByTable b)) in
  groupsOf b gs ∧ NoDup gs.*1
  ∧ ∀ T, if decide (ofTable T b = []) then T ∉ gs.*1
         else (T, ofTable T b) ∈ gs.
Proof.
  intros Hv. simpl. pose proof (Hv (map_to_list (groupByTable b))) as Hp.
  split_and!.
  - intros T evs. rewrite Hp, elem_of_map_to_list, groupByTable_lookup.
    case_decide; [done|]. by intros [= <-].
  - rewrite Hp. apply NoDup_fst_map_to_list.
  - intros T.
    pose proof (groupByTable_lookup b T) as HL.
    destruct (decide (ofTable T b = [])); rewrite Hp.
    + intros [[T' evs] [-> Hin]]%list_elem_of_fmap. simpl in *.
      apply elem_of_map_to_list in Hin. congruence.
    + by apply elem_of_map_to_list.
Qed.

Lemma ofTable_idem (T : string) (b : list BinlogEvent.t) :
  ofTable T (ofTable T b) = ofTable T b.
Proof. by rewrite ofTable_ofTable, decide_True. Qed.


Lemma processBatch_worker (env : Env) (p : t) (w : Worker) (wd : World) :
  batch (processBatch env p w wd).1 = [] ∧ id (processBatch env p w wd).1 = id w.
Proof.
  unfold processBatch. by destruct (batch w) eqn:E.
Qed.


(** A table with events in the batch: [processBatch] comes to running
    [processGroup] once on its group, as far as this table goes. *)
Lemma processBatch_present (env : Env) (p : t) (w : Worker) (wd : World)
    (T : string) :
  visitsAll env → ofTable T (batch w) ≠ [] →
  ∃ wd1, sameAt T wd wd1
         ∧ sameAt T (processGroup env p wd1 (T, ofTable T (batch w)))
                    (processBatch env p w wd).2.
Proof.
  intros Hv HT. unfold processBatch.
  destruct (batch w) as [|e b] eqn:E; [done|]. simpl.
  destruct (groupByTable_groups env (e :: b) Hv) as (Hgs & Hnd & Hall).
  specialize (Hall T). rewrite decide_False in Hall by done.
  by apply (foldl_processGroup_at env p (e :: b)).
Qed.


End process_batch_groups.



(** C4.  When the transaction of a table group fails, nothing of it is
    committed at the target (the failed transaction leaves the target as
    it was) and the stored position of that table is what it was before
    the batch: no sync-state write is made for the failed group. *)
Theorem failed_group_keeps_position (env : WorkerPool.Env) (p : WorkerPool.t)
    (w : WorkerPool.Worker) (wd : WorkerPool.World) (T : string) :
  visitsAll env →
  WorkerPool.ofTable T (WorkerPool.batch w) ≠ [] →
  (∀ d, (WorkerPool.applyChanges p (WorkerPool.txFaults env T) d T
           (WorkerPool.ofTable T (WorkerPool.batch w))).2 ≠ nil) →
  let wd' := (WorkerPool.processBatch env p w wd).2 in
  (∀ d, (WorkerPool.applyChanges p (WorkerPool.txFaults env T) d T
           (WorkerPool.ofTable T (WorkerPool.batch w))).1 = d)
  ∧ WorkerPool.committedFor T (WorkerPool.targetDB wd')
    = WorkerPool.committedFor T (WorkerPool.targetDB wd)
  ∧ MySQLStore.sync_state (WorkerPool.store wd') !! T
    = MySQLStore.sync_state (WorkerPool.store wd) !! T.
Proof.
  intros Hv HT Hfail wd'.
  assert (txErr p (WorkerPool.txFaults env T) ≠ None) as Htx.
  { eapply applyChanges_fails_iff. apply (Hfail (WorkerPool.targetDB wd)). }
  split.
  { intros d. rewrite applyChanges_eq.
    by destruct (txErr p (WorkerPool.txFaults env T)). }
  destruct (processBatch_present env p w wd T Hv HT) as (wd1 & H1 & H2).
  pose proof (processGroup_same env p T _ wd1 (ofTable_idem T (WorkerPool.batch w))) as H3.
  cbv zeta in H3. destruct (txErr p (WorkerPool.txFaults env T)); [|done].
  destruct (sameAt_trans _ _ _ _ H1 (sameAt_trans _ _ _ _ H3 H2)) as [A B].
  by split.
Qed.

Lemma failed_group_keeps_position_witness :
  let w := worker_with [users_e1; orders_e; users_e2] in
  let wd' := (WorkerPool.processBatch env_orders_fail (pool_of 2) w world_0).2 in
  (∀ d, (WorkerPool.applyChanges (pool_of 2)
           (WorkerPool.txFaults env_orders_fail "orders") d "orders"
           (WorkerPool.ofTable "orders" (WorkerPool.batch w))).1 = d)
  ∧ WorkerPool.committedFor "orders" (WorkerPool.targetDB wd')
    = WorkerPool.committedFor "orders" (WorkerPool.targetDB world_0)
  ∧ MySQLStore.sync_state (WorkerPool.store wd') !! "orders"
    = MySQLStore.sync_state (WorkerPool.store world_0) !! "orders".
Proof.
  apply (failed_group_keeps_position env_orders_fail (pool_of 2)
           (worker_with [users_e1; orders_e; users_e2]) world_0 "orders").
  - intros l. reflexivity.
  - vm_compute. discriminate.
  - intros d. vm_compute. discriminate.
Defined.

(** In the same batch the group of [users] commits and its position is
    written, while [orders] keeps no position. *)
Example mixed_batch :
  let w := worker_with [users_e1; orders_e; users_e2] in
  let wd' := (WorkerPool.processBatch env_orders_fail (pool_of 2) w world_0).2 in
  WorkerPool.committedFor "users" (WorkerPool.targetDB wd') = [users_e1; users_e2]
  ∧ WorkerPool.committedFor "orders" (WorkerPool.targetDB wd') = []
  ∧ SyncState.BinlogPosition <$> MySQLStore.sync_state (WorkerPool.store wd') !! "users"
    = Some (Some 240)
  ∧ MySQLStore.sync_state (WorkerPool.store wd') !! "orders" = None.
Proof. vm_compute. by split_and!. Qed.




(** ** The listener and its queue *)

Section listener.
Import BinlogListener.

Lemma NewBinlogListener_Some (newCanalErr : error)
    (cfg : Config.DatabaseConnection) (tables : list Config.TableConfig)
    (l : t) (err : error) :
  NewBinlogListener newCanalErr cfg tables = (Some l, err) →
  err = nil
  ∧ eventChan l = Chan.make 10000
  ∧ ctx l = Context.Background
  ∧ BinlogListener.tables l = list_to_set (Config.Name <$> tables).
Proof.
  unfold NewBinlogListener. destruct newCanalErr; [done|].
  by intros [= <- <-].
Qed.

(** A row event that is not to be forwarded: [OnRow] returns at once
    and changes nothing. *)
Lemma OnRow_skip (pick : bool) (l : t) (pos : Canal.Position) (e : Canal.RowsEvent) :
  Pipeline.forwarded (tables l) (pos, e) = None →
  OnRow pick l pos e = Return l nil.
Proof.
  unfold Pipeline.forwarded, OnRow; simpl.
  destruct (decide (_ ∈ _)); [|done].
  by destruct (eventTypeOf (Canal.Action e)).
Qed.

(** A row event to be forwarded, on an open queue and a live context:
    with room in the queue it goes to the back of the queue; with a full
    queue the call is parked with the event in hand. *)
Lemma OnRow_live (pick : bool) (l : t) (pos : Canal.Position) (e : Canal.RowsEvent)
    (ev : BinlogEvent.t) :
  Pipeline.forwarded (tables l) (pos, e) = Some ev →
  Context.Done (ctx l) = false → Chan.closed (eventChan l) = false →
  OnRow pick l pos e
  = if Chan.hasSpace (eventChan l)
    then Return (queued l (Chan.buf (eventChan l) ++ [ev])) nil
    else Parked l ev.
Proof.
  unfold Pipeline.forwarded, OnRow; simpl. intros Hf Hctx Hcl.
  destruct (decide (_ ∈ _)); [|done].
  destruct (eventTypeOf (Canal.Action e)); [|done].
  simpl in Hf. injection Hf as <-.
  unfold Chan.sendReady, Chan.send. rewrite Hctx, Hcl. simpl.
  by destruct (Chan.hasSpace (eventChan l)).
Qed.

(** Parked on a full queue, the call returns the error of the context
    once the context is cancelled; the event is not queued. *)
Lemma OnRow_cancelled (pick : bool) (l : t) (pos : Canal.Position)
    (e : Canal.RowsEvent) (ev : BinlogEvent.t) :
  Pipeline.forwarded (tables l) (pos, e) = Some ev →
  Chan.closed (eventChan l) = false → Chan.hasSpace (eventChan l) = false →
  OnRow pick (cancel l) pos e = Return (cancel l) (Some Context.Canceled).
Proof.
  unfold Pipeline.forwarded, OnRow; simpl. intros Hf Hcl Hfull.
  destruct (decide (_ ∈ _)); [|done].
  destruct (eventTypeOf (Canal.Action e)); [|done].
  unfold Chan.sendReady. by rewrite Hcl, Hfull.
Qed.

End listener.

Section pipeline.
Import Pipeline.

Variable src : list (Canal.Position * Canal.RowsEvent).
Variable allow : gset string.

Lemma inv_step (mv : Move) (s s' : t) :
  inv src allow s → step mv s = Some s' → inv src allow s'.
Proof.
  intros (Ht & Hctx & Hcl & Hcap & Hlen & Hseq). destruct mv as [pick|]; simpl.
  - destruct (source s) as [|[pos e] rest] eqn:Hsrc; [done|].
    simpl in Hseq.
    destruct (forwarded allow (pos, e)) as [ev|] eqn:Hf.
    + rewrite (OnRow_live pick _ pos e ev) by (by rewrite ?Ht).
      destruct (Chan.hasSpace _) eqn:Hsp; [|done]. intros [= <-].
      unfold inv, queued; simpl. split_and!; try done.
      * unfold Chan.hasSpace in Hsp. rewrite Hcap in Hsp.
        rewrite length_app; simpl. lia.
      * rewrite <- Hseq. by rewrite <- !app_assoc.
    + rewrite (OnRow_skip pick _ pos e) by (by rewrite Ht).
      intros [= <-]. by unfold inv.
  - unfold Chan.recv.
    destruct (Chan.buf (BinlogListener.eventChan (listener s))) as [|x b] eqn:Hb.
    { by destruct (Chan.closed _). }
    intros [= <-]. unfold inv; simpl. split_and!; try done.
    + simpl in Hlen. lia.
    + rewrite <- Hseq. by rewrite <- !app_assoc.
Qed.

Lemma inv_exec (mvs : list Move) (s s' : t) :
  inv src allow s → exec mvs s = Some s' → inv src allow s'.
Proof.
  revert s. induction mvs as [|mv mvs IH]; intros s Hs; simpl.
  - by intros [= <-].
  - destruct (step mv s) as [s1|] eqn:E; [|done]. simpl.
    apply IH. by apply (inv_step mv s).
Qed.

End pipeline.

Lemma listener_users_built :
  BinlogListener.NewBinlogListener nil local_db [users_table]
  = (Some listener_users, nil).
Proof. vm_compute. reflexivity. Qed.

Lemma forwarded_users_insert :
  Pipeline.forwarded {["users"]} (at_offset 120, row_event "users" "insert" 1)
  = Some users_insert_120.
Proof. vm_compute. reflexivity. Qed.

Lemma full_listener_full :
  Chan.hasSpace (BinlogListener.eventChan full_listener) = false.
Proof.
  unfold Chan.hasSpace, full_listener.
  change (Chan.buf (BinlogListener.eventChan (queued listener_users ?b))) with b.
  change (Chan.cap (BinlogListener.eventChan (queued listener_users ?b))) with 10000.
  rewrite length_replicate. apply Z.ltb_ge. lia.
Qed.

(** C8, as stated, fails on two counts.  No connection settings and no
    table list make [NewBinlogListener] build a queue of a capacity other
    than 10,000: the capacity is not configurable.  And an event is
    dropped when cancellation is observed: with the queue full, the call
    of [OnRow] for an insert into [users] is parked, and once the context
    is cancelled it returns the error of the context with the queue as it
    was. *)
Lemma queue_capacity_fixed_and_cancel_drops :
  (¬ ∃ newCanalErr cfg tables l,
       BinlogListener.NewBinlogListener newCanalErr cfg tables = (Some l, nil)
       ∧ Chan.cap (BinlogListener.eventChan l) ≠ 10000)
  ∧ BinlogListener.OnRow true full_listener (at_offset 120) (row_event "users" "insert" 1)
    = BinlogListener.Parked full_listener users_insert_120
  ∧ BinlogListener.OnRow true (BinlogListener.cancel full_listener) (at_offset 120)
      (row_event "users" "insert" 1)
    = BinlogListener.Return (BinlogListener.cancel full_listener) (Some Context.Canceled)
  ∧ users_insert_120
    ∉ Chan.buf (BinlogListener.eventChan (BinlogListener.cancel full_listener)).
Proof.
  split_and!.
  - intros (newCanalErr & cfg & tables & l & Hl & Hcap).
    apply NewBinlogListener_Some in Hl as (_ & Hch & _). by rewrite Hch in Hcap.
  - rewrite (OnRow_live true _ _ _ users_insert_120);
      [| apply forwarded_users_insert | done | done ].
    by rewrite full_listener_full.
  - apply OnRow_cancelled with (ev := users_insert_120);
      [apply forwarded_users_insert | done | apply full_listener_full].
  - change (Chan.buf _) with (replicate (Z.to_nat 10000) (insert_at "users" 4 [])).
    intros [E _]%elem_of_replicate. discriminate E.
Qed.

(** C8, amended.  The queue a listener is built with has capacity 10,000,
    whatever the configuration.  For a row event that is to be forwarded
    (allow-listed table; insert, update or delete), on a listener whose
    queue holds [b]: with room in the queue the event goes to the back of
    the queue; with the queue full the call is parked with the event in
    hand and the queue untouched, and returns the error of the context
    once the context is cancelled.  As long as cancellation is not
    observed nothing is dropped or reordered: at any point of any run of
    the canal against the consumers, the events delivered, followed by the
    events queued, followed by the forwardable events still to come, are
    the forwardable events of the source in log order, and the queue never
    holds more than 10,000 events. *)
Theorem enqueue_blocks_and_keeps_order (newCanalErr : error)
    (cfg : Config.DatabaseConnection) (tables : list Config.TableConfig)
    (l : BinlogListener.t) :
  BinlogListener.NewBinlogListener newCanalErr cfg tables = (Some l, nil) →
  Chan.cap (BinlogListener.eventChan l) = 10000
  ∧ (∀ pick b pos e ev,
       Pipeline.forwarded (BinlogListener.tables l) (pos, e) = Some ev →
       (Z.of_nat (length b) < 10000 →
        BinlogListener.OnRow pick (queued l b) pos e
        = BinlogListener.Return (queued l (b ++ [ev])) nil)
       ∧ (10000 <= Z.of_nat (length b) →
          BinlogListener.OnRow pick (queued l b) pos e
          = BinlogListener.Parked (queued l b) ev
          ∧ BinlogListener.OnRow pick (BinlogListener.cancel (queued l b)) pos e
            = BinlogListener.Return (BinlogListener.cancel (queued l b))
                (Some Context.Canceled)))
  ∧ (∀ src mvs s,
       Pipeline.exec mvs {| Pipeline.source := src;
                            Pipeline.listener := l;
                            Pipeline.delivered := [] |} = Some s →
       Z.of_nat (length (Chan.buf (BinlogListener.eventChan (Pipeline.listener s))))
         <= 10000
       ∧ Pipeline.delivered s
           ++ Chan.buf (BinlogListener.eventChan (Pipeline.listener s))
           ++ omap (Pipeline.forwarded (BinlogListener.tables l)) (Pipeline.source s)
         = omap (Pipeline.forwarded (BinlogListener.tables l)) src).
Proof.
  intros Hl. apply NewBinlogListener_Some in Hl as (_ & Hch & Hctx & Htab).
  assert (∀ b, Chan.hasSpace (BinlogListener.eventChan (queued l b))
               = (Z.of_nat (length b) <? 10000)) as Hsp.
  { intros b. unfold Chan.hasSpace.
    change (Chan.cap (BinlogListener.eventChan (queued l b)))
      with (Chan.cap (BinlogListener.eventChan l)).
    by rewrite Hch. }
  assert (∀ b, Context.Done (BinlogListener.ctx (queued l b)) = false) as Hlive.
  { intros b. change (BinlogListener.ctx (queued l b)) with (BinlogListener.ctx l).
    by rewrite Hctx. }
  assert (∀ b, Chan.closed (BinlogListener.eventChan (queued l b)) = false) as Hopen.
  { intros b. change (Chan.closed (BinlogListener.eventChan (queued l b)))
      with (Chan.closed (BinlogListener.eventChan l)).
    by rewrite Hch. }
  split_and!.
  - by rewrite Hch.
  - intros pick b pos e ev Hf. split.
    + intros Hb. rewrite (OnRow_live pick (queued l b) pos e ev Hf (Hlive b) (Hopen b)).
      rewrite Hsp. by rewrite (proj2 (Z.ltb_lt _ _) Hb).
    + intros Hb. split.
      * rewrite (OnRow_live pick (queued l b) pos e ev Hf (Hlive b) (Hopen b)).
        rewrite Hsp. by rewrite (proj2 (Z.ltb_ge _ _) Hb).
      * apply (OnRow_cancelled pick (queued l b) pos e ev Hf (Hopen b)).
        rewrite Hsp. by apply Z.ltb_ge.
  - intros src mvs s Hexec.
    assert (inv src (BinlogListener.tables l)
              {| Pipeline.source := src; Pipeline.listener := l;
                 Pipeline.delivered := [] |}) as Hinit.
    { unfold inv; simpl. rewrite Hch, Hctx. simpl. split_and!; try done. }
    destruct (inv_exec src _ mvs _ s Hinit Hexec) as (_ & _ & _ & _ & Hlen & Hseq).
    by split.
Qed.

Lemma enqueue_blocks_and_keeps_order_witness :
  Chan.cap (BinlogListener.eventChan listener_users) = 10000
  ∧ (∀ pick b pos e ev,
       Pipeline.forwarded (BinlogListener.tables listener_users) (pos, e) = Some ev →
       (Z.of_nat (length b) < 10000 →
        BinlogListener.OnRow pick (queued listener_users b) pos e
        = BinlogListener.Return (queued listener_users (b ++ [ev])) nil)
       ∧ (10000 <= Z.of_nat (length b) →
          BinlogListener.OnRow pick (queued listener_users b) pos e
          = BinlogListener.Parked (queued listener_users b) ev
          ∧ BinlogListener.OnRow pick (BinlogListener.cancel (queued listener_users b)) pos e
            = BinlogListener.Return (BinlogListener.cancel (queued listener_users b))
                (Some Context.Canceled)))
  ∧ (∀ src mvs s,
       Pipeline.exec mvs {| Pipeline.source := src;
                            Pipeline.listener := listener_users;
                            Pipeline.delivered := [] |} = Some s →
       Z.of_nat (length (Chan.buf (BinlogListener.eventChan (Pipeline.listener s))))
         <= 10000
       ∧ Pipeline.delivered s
           ++ Chan.buf (BinlogListener.eventChan (Pipeline.listener s))
           ++ omap (Pipeline.forwarded (BinlogListener.tables listener_users))
                (Pipeline.source s)
         = omap (Pipeline.forwarded (BinlogListener.tables listener_users)) src).
Proof.
  apply (enqueue_blocks_and_keeps_order nil local_db [users_table] listener_users).
  vm_compute. reflexivity.
Defined.

(** A run on three row events, the second on a table that is not
    allow-listed: two are queued, one of them is delivered. *)
Example pipeline_run :
  ∃ s, Pipeline.exec [Pipeline.Produce true; Pipeline.Produce true; Pipeline.Consume;
                      Pipeline.Produce true]
         {| Pipeline.source := source_3; Pipeline.listener := listener_users;
            Pipeline.delivered := [] |} = Some s
       ∧ BinlogEvent.BinlogPos <$> Pipeline.delivered s = [120]
       ∧ BinlogEvent.BinlogPos
           <$> Chan.buf (BinlogListener.eventChan (Pipeline.listener s)) = [240].
Proof. eexists. split; [vm_compute; reflexivity|]. by vm_compute. Qed.

(** ** The pool on the shared queue *)

Section pool.
Import WorkerPool.
Local Arguments run : simpl never.
Local Arguments processBatch : simpl never.














End pool.






(** ** The state store over sequences of calls *)

Section store_calls.
Import MySQLStore.

Lemma afterCall_state_other table s c :
  ¬ writesState table c →
  sync_state (afterCall s c) !! table = sync_state s !! table.
Proof.
  destruct c as [ctx fault now state|ctx fault conflict
                |ctx fault now id strategy data]; simpl; intros Hw.
  - unfold UpdateSyncState. destruct (Sql.roundTrip ctx fault); simpl; [done|].
    by rewrite lookup_insert_ne.
  - unfold CreateConflict. destruct (Sql.roundTrip ctx fault); simpl; [done|].
    by destruct (conflicts s !! Conflict.ID conflict).
  - unfold ResolveConflict. destruct (Sql.roundTrip ctx fault); simpl; [done|].
    by destruct (conflicts s !! id).
Qed.

Lemma afterCalls_state_other table cs : ∀ s,
  Forall (λ c, ¬ writesState table c) cs →
  sync_state (afterCalls s cs) !! table = sync_state s !! table.
Proof.
  induction cs as [|c cs IH]; intros s Hcs; simpl; [done|].
  inversion Hcs; subst. rewrite IH by done. by apply afterCall_state_other.
Qed.

Lemma sameRecord_refl c : sameRecord c c.
Proof. by repeat split. Qed.

Lemma sameRecord_trans a b c : sameRecord a b → sameRecord b c → sameRecord a c.
Proof.
  unfold sameRecord. intros (?&?&?&?&?&?&?) (?&?&?&?&?&?&?).
  repeat split; congruence.
Qed.

Lemma sameRecord_resolveRow strategy data now c :
  sameRecord c (resolveRow strategy data now c).
Proof. by repeat split. Qed.

(** A call leaves every row in place; it changes at most the resolution
    of the row it resolves. *)
Lemma afterCall_conflict s c id row :
  conflicts s !! id = Some row →
  ∃ row', conflicts (afterCall s c) !! id = Some row'
    ∧ sameRecord row row'
    ∧ (Conflict.Resolved row = true → Conflict.Resolved row' = true)
    ∧ (¬ resolves id c → row' = row).
Proof.
  intros Hrow.
  destruct c as [ctx fault now state|ctx fault conflict
                |ctx fault now id' strategy data]; simpl.
  - exists row. unfold UpdateSyncState.
    destruct (Sql.roundTrip ctx fault); simpl;
      by repeat split; try apply sameRecord_refl.
  - exists row. unfold CreateConflict.
    destruct (Sql.roundTrip ctx fault); simpl;
      [by repeat split; try apply sameRecord_refl|].
    destruct (conflicts s !! Conflict.ID conflict) eqn:Hc; simpl;
      [by repeat split; try apply sameRecord_refl|].
    rewrite lookup_insert_ne by congruence.
    by repeat split; try apply sameRecord_refl.
  - unfold ResolveConflict.
    destruct (Sql.roundTrip ctx fault); simpl;
      [exists row; by repeat split; try apply sameRecord_refl|].
    destruct (decide (id' = id)) as [->|Hne].
    + rewrite Hrow. simpl. rewrite lookup_insert_eq.
      eexists. split; [done|]. split; [apply sameRecord_resolveRow|].
      split; [done|]. intros []. done.
    + destruct (conflicts s !! id'); simpl;
        [rewrite lookup_insert_ne by done|];
        exists row; by repeat split; try apply sameRecord_refl.
Qed.


Lemma afterCall_unresolvedBare s c :
  unresolvedBare s → unresolvedBare (afterCall s c).
Proof.
  intros Hs id row.
  destruct c as [ctx fault now state|ctx fault conflict
                |ctx fault now id' strategy data]; simpl.
  - unfold UpdateSyncState. destruct (Sql.roundTrip ctx fault); simpl; apply Hs.
  - unfold CreateConflict. destruct (Sql.roundTrip ctx fault); simpl; [apply Hs|].
    destruct (conflicts s !! Conflict.ID conflict) eqn:Hc; simpl; [apply Hs|].
    destruct (decide (Conflict.ID conflict = id)) as [<-|Hne].
    + rewrite lookup_insert_eq. by intros [= <-].
    + rewrite lookup_insert_ne by done. apply Hs.
  - unfold ResolveConflict. destruct (Sql.roundTrip ctx fault); simpl; [apply Hs|].
    destruct (conflicts s !! id') eqn:Hc; simpl; [|apply Hs].
    destruct (decide (id' = id)) as [<-|Hne].
    + rewrite lookup_insert_eq. by intros [= <-].
    + rewrite lookup_insert_ne by done. apply Hs.
Qed.

Lemma afterCalls_unresolvedBare cs : ∀ s,
  unresolvedBare s → unresolvedBare (afterCalls s cs).
Proof.
  induction cs as [|c cs IH]; intros s Hs; simpl; [done|].
  by apply IH, afterCall_unresolvedBare.
Qed.

Lemma empty_unresolvedBare : unresolvedBare empty.
Proof. intros id row. simpl. by rewrite lookup_empty. Qed.

Lemma scanConflict_bare row :
  Conflict.ResolvedData row = None →
  ∃ e, scanConflict row = (None, Some e).
Proof.
  intros H. unfold scanConflict. rewrite H.
  destruct (Conflict.LocalData row), (Conflict.CloudData row); eauto.
Qed.


Lemma scanConflicts_bare rows :
  Forall (λ row, Conflict.ResolvedData row = None) rows →
  (scanConflicts rows).1 = [] ∧ (rows ≠ [] → (scanConflicts rows).2 ≠ nil).
Proof.
  destruct rows as [|row rest]; intros Hall; [done|].
  inversion Hall as [|? ? Hrow _]; subst.
  destruct (scanConflict_bare row Hrow) as [e He].
  simpl. rewrite He. done.
Qed.


End store_calls.

(** X1.  After a call of [UpdateSyncState] that returned no error,
    [GetSyncState] for that table returns the values written, with
    [updated_at] the time of the write, whatever calls on other tables or
    on conflicts were made in between. *)
Theorem GetSyncState_reads_last_write ctx fault now s state s' cs :
  MySQLStore.UpdateSyncState ctx fault now s state = (s', nil) →
  Forall (λ c, ¬ writesState (SyncState.TableName state) c) cs →
  MySQLStore.GetSyncState Context.Background nil (afterCalls s' cs)
    (SyncState.TableName state)
  = (Some (stateRow now state), nil).
Proof.
  intros Hw Hcs. unfold MySQLStore.GetSyncState. simpl.
  rewrite afterCalls_state_other by done.
  unfold MySQLStore.UpdateSyncState in Hw.
  destruct (Sql.roundTrip ctx fault); [done|].
  injection Hw as <-. simpl. by rewrite lookup_insert_eq.
Qed.

Lemma GetSyncState_reads_last_write_witness :
  MySQLStore.GetSyncState Context.Background nil
    (afterCalls
       (MySQLStore.UpdateSyncState Context.Background nil 1700000400
          (store_at "mysql-bin.000001" 4)
          (position_row "users" "mysql-bin.000002" 77 9)).1
       store_calls_other)
    "users"
  = (Some (stateRow 1700000400 (position_row "users" "mysql-bin.000002" 77 9)),
     nil).
Proof.
  apply (GetSyncState_reads_last_write Context.Background nil 1700000400
           (store_at "mysql-bin.000001" 4)
           (position_row "users" "mysql-bin.000002" 77 9)).
  - reflexivity.
  - apply (bool_decide_unpack _). vm_compute. reflexivity.
Defined.

(** X2.  A recorded conflict stays: whatever calls follow, the row is
    still there with the same id, table, primary key value, local and
    cloud images, type and detection time, and once resolved it is never
    unresolved again.  Only a [ResolveConflict] of that id changes the
    row at all. *)
Theorem conflict_record_is_permanent s id row cs :
  MySQLStore.conflicts s !! id = Some row →
  ∃ row', MySQLStore.conflicts (afterCalls s cs) !! id = Some row'
    ∧ sameRecord row row'
    ∧ (Conflict.Resolved row = true → Conflict.Resolved row' = true)
    ∧ (Forall (λ c, ¬ resolves id c) cs → row' = row).
Proof.
  revert s row. induction cs as [|c cs IH]; intros s row Hrow; simpl.
  - exists row. by repeat split; try apply sameRecord_refl.
  - destruct (afterCall_conflict s c id row Hrow) as (r1 & H1 & Hs1 & Hr1 & Hk1).
    destruct (IH _ _ H1) as (r2 & H2 & Hs2 & Hr2 & Hk2).
    exists r2. split; [done|]. split; [by eapply sameRecord_trans|].
    split; [auto|]. intros Hcs. inversion Hcs; subst.
    rewrite Hk2 by done. auto.
Qed.

Lemma conflict_record_is_permanent_witness :
  ∃ row', MySQLStore.conflicts (afterCalls store_one_conflict store_calls_other)
            !! "11111111-1111-4111-8111-111111111111" = Some row'
    ∧ sameRecord (conflict_users_5 "11111111-1111-4111-8111-111111111111") row'
    ∧ (Conflict.Resolved
         (conflict_users_5 "11111111-1111-4111-8111-111111111111") = true →
       Conflict.Resolved row' = true)
    ∧ (Forall (λ c, ¬ resolves "11111111-1111-4111-8111-111111111111" c)
         store_calls_other →
       row' = conflict_users_5 "11111111-1111-4111-8111-111111111111").
Proof.
  apply (conflict_record_is_permanent store_one_conflict
           "11111111-1111-4111-8111-111111111111"
           (conflict_users_5 "11111111-1111-4111-8111-111111111111")
           store_calls_other).
  reflexivity.
Defined.

(** X3.  In a store that started empty, [GetConflict] cannot read an
    unresolved conflict: its [resolved_data] is NULL, which [Scan] cannot
    store into a [json.RawMessage], so the call returns no conflict and
    an error. *)
Theorem GetConflict_unresolved_fails cs id row ctx fault :
  MySQLStore.conflicts (afterCalls MySQLStore.empty cs) !! id = Some row →
  Conflict.Resolved row = false →
  ∃ e, MySQLStore.GetConflict ctx fault (afterCalls MySQLStore.empty cs) id
       = (None, Some e).
Proof.
  intros Hrow Hres. unfold MySQLStore.GetConflict.
  destruct (Sql.roundTrip ctx fault); [eauto|].
  rewrite Hrow. apply scanConflict_bare.
  by eapply (afterCalls_unresolvedBare cs _ empty_unresolvedBare).
Qed.

Lemma GetConflict_unresolved_fails_witness :
  ∃ e, MySQLStore.GetConflict Context.Background nil
         (afterCalls MySQLStore.empty
            [CallCreateConflict Context.Background nil conflict_lww])
         "44444444-4444-4444-8444-444444444444"
       = (None, Some e).
Proof.
  apply (GetConflict_unresolved_fails
           [CallCreateConflict Context.Background nil conflict_lww]
           "44444444-4444-4444-8444-444444444444" conflict_lww).
  - reflexivity.
  - reflexivity.
Defined.

Section list_conflicts.
Import MySQLStore.

Lemma matching_stored s resolved row :
  row ∈ filter (λ c, Conflict.Resolved c = resolved)
          (map_to_list (conflicts s)).*2 ↔
  (∃ id, conflicts s !! id = Some row) ∧ Conflict.Resolved row = resolved.
Proof.
  rewrite list_elem_of_filter, list_elem_of_fmap. split.
  - intros [Hres ([id r] & -> & Hin)]. split; [|done].
    exists id. by apply elem_of_map_to_list.
  - intros [[id Hrow] Hres]. split; [done|].
    exists (id, row). split; [done|]. by apply elem_of_map_to_list.
Qed.

(** The rows the LIMIT and OFFSET leave are among the rows read. *)
Lemma page_subseteq {A} (l : list A) (n m : nat) : take n (drop m l) ⊆ l.
Proof.
  transitivity (drop m l); [apply subseteq_take|apply subseteq_drop].
Qed.

End list_conflicts.

(** X4.  In a store that started empty, listing the unresolved conflicts
    never returns one: the page is empty or the call fails.  As soon as
    an unresolved conflict exists, the first page of any positive size
    is an error. *)
Theorem ListConflicts_unresolved_never_lists cs scanOrder :
  (∀ l, scanOrder l ≡ₚ l) →
  (∀ ctx fault limit offset,
     0 <= limit → 0 <= offset →
     (MySQLStore.ListConflicts ctx fault scanOrder
        (afterCalls MySQLStore.empty cs) false limit offset).1 = [])
  ∧ (∀ id row limit,
       MySQLStore.conflicts (afterCalls MySQLStore.empty cs) !! id = Some row →
       Conflict.Resolved row = false →
       0 < limit →
       (MySQLStore.ListConflicts Context.Background nil scanOrder
          (afterCalls MySQLStore.empty cs) false limit 0).2 ≠ nil).
Proof.
  intros Horder.
  set (s := afterCalls MySQLStore.empty cs).
  assert (Hbare : ∀ n m,
    Forall (λ row, Conflict.ResolvedData row = None)
      (take n (drop m (scanOrder
         (filter (λ c, Conflict.Resolved c = false)
            (map_to_list (MySQLStore.conflicts s)).*2))))).
  { intros n m. apply Forall_forall. intros row Hin.
    apply page_subseteq in Hin. rewrite Horder in Hin.
    apply matching_stored in Hin as [[id Hrow] Hres].
    by eapply (afterCalls_unresolvedBare cs _ empty_unresolvedBare). }
  split.
  - intros ctx fault limit offset Hlimit Hoffset.
    unfold MySQLStore.ListConflicts.
    destruct (Sql.roundTrip ctx fault); [done|].
    destruct (decide (limit < 0 ∨ offset < 0)); [done|].
    apply scanConflicts_bare, Hbare.
  - intros id row limit Hrow Hres Hlimit. unfold MySQLStore.ListConflicts.
    simpl. destruct (decide (limit < 0 ∨ 0 < 0)) as [[?|?]|_]; [lia|lia|].
    apply scanConflicts_bare; [apply Hbare|].
    change (Z.to_nat 0) with 0%nat. rewrite drop_0.
    assert (Hin : row ∈ scanOrder
      (filter (λ c, Conflict.Resolved c = false)
         (map_to_list (MySQLStore.conflicts s)).*2)).
    { rewrite Horder. apply matching_stored. eauto. }
    destruct (scanOrder _) as [|r rest]; [by apply elem_of_nil in Hin|].
    destruct (Z.to_nat limit) eqn:Hn; [lia|]. done.
Qed.

Lemma ListConflicts_unresolved_never_lists_witness :
  (∀ ctx fault limit offset,
     0 <= limit → 0 <= offset →
     (MySQLStore.ListConflicts ctx fault id
        (afterCalls MySQLStore.empty store_calls_other) false limit offset).1 = [])
  ∧ (∀ id' row limit,
       MySQLStore.conflicts (afterCalls MySQLStore.empty store_calls_other)
         !! id' = Some row →
       Conflict.Resolved row = false →
       0 < limit →
       (MySQLStore.ListConflicts Context.Background nil id
          (afterCalls MySQLStore.empty store_calls_other) false limit 0).2 ≠ nil).
Proof.
  apply (ListConflicts_unresolved_never_lists store_calls_other id).
  intros l. reflexivity.
Defined.





(** X7.  [ResolveConflict] does not look at whether the conflict is
    resolved already: resolving again replaces strategy, data and time,
    and the store is the one a single call with the later arguments
    gives.  A resolution with a nil [resolvedData] leaves a row that
    [GetConflict] cannot read. *)
Theorem ResolveConflict_again_replaces s id t1 strategy1 data1 t2 strategy2 data2 :
  (MySQLStore.ResolveConflict Context.Background nil t2
     (MySQLStore.ResolveConflict Context.Background nil t1 s id
        strategy1 data1).1.1
     id strategy2 data2).1.1
  = (MySQLStore.ResolveConflict Context.Background nil t2 s id
       strategy2 data2).1.1
  ∧ ∃ e, MySQLStore.GetConflict Context.Background nil
           (MySQLStore.ResolveConflict Context.Background nil t2 s id
              strategy2 None).1.1 id
         = (None, e)
         ∧ (is_Some (MySQLStore.conflicts s !! id) → e ≠ nil).
Proof.
  unfold MySQLStore.ResolveConflict, MySQLStore.GetConflict. simpl.
  destruct (MySQLStore.conflicts s !! id) as [c|] eqn:Hc; simpl.
  - rewrite !lookup_insert_eq. simpl. rewrite insert_insert_eq. split; [done|].
    destruct (scanConflict_bare (MySQLStore.resolveRow strategy2 None t2 c))
      as [e He]; [done|].
    rewrite He. eauto.
  - rewrite ?Hc. simpl. rewrite ?Hc. split; [done|].
    exists nil. split; [done|]. by intros [? ?].
Qed.

(** ** The history of runs *)

Section history.
Import MySQLStoreHistory.

(** What of a run is settled when it is recorded. *)
Lemma afterHistoryCall_row s c id row :
  s !! id = Some row →
  ∃ row', afterHistoryCall s c !! id = Some row'
    ∧ SyncHistory.ID row' = SyncHistory.ID row
    ∧ SyncHistory.StartedAt row' = SyncHistory.StartedAt row
    ∧ SyncHistory.Direction row' = SyncHistory.Direction row
    ∧ SyncHistory.TablesSynced row' = SyncHistory.TablesSynced row.
Proof.
  intros Hrow. destruct c as [ctx fault h|ctx fault h]; simpl.
  - exists row. unfold CreateSyncHistory.
    destruct (Sql.roundTrip ctx fault); simpl; [done|].
    destruct (s !! SyncHistory.ID h) eqn:Hh; simpl; [done|].
    by rewrite lookup_insert_ne by congruence.
  - unfold UpdateSyncHistory.
    destruct (Sql.roundTrip ctx fault); simpl; [by exists row|].
    destruct (decide (SyncHistory.ID h = id)) as [<-|Hne].
    + rewrite Hrow. simpl. rewrite lookup_insert_eq. by eexists.
    + exists row. destruct (s !! SyncHistory.ID h); simpl;
        [by rewrite lookup_insert_ne by done|done].
Qed.

Lemma newerFirst_trans : Transitive newerFirst.
Proof. unfold newerFirst. intros a b c ? ?. lia. Qed.

Lemma newerFirst_total : Total newerFirst.
Proof. unfold newerFirst. intros a b. lia. Qed.

End history.

(** X8.  A recorded run stays: whatever calls of [CreateSyncHistory] and
    [UpdateSyncHistory] follow, the row is still there with the id, start
    time, direction and table list it was recorded with. *)
Theorem history_record_is_permanent cs : ∀ s id row,
  s !! id = Some row →
  ∃ row', afterHistoryCalls s cs !! id = Some row'
    ∧ SyncHistory.ID row' = SyncHistory.ID row
    ∧ SyncHistory.StartedAt row' = SyncHistory.StartedAt row
    ∧ SyncHistory.Direction row' = SyncHistory.Direction row
    ∧ SyncHistory.TablesSynced row' = SyncHistory.TablesSynced row.
Proof.
  induction cs as [|c cs IH]; intros s id row Hrow; simpl; [by exists row|].
  destruct (afterHistoryCall_row s c id row Hrow) as (r1 & Hr1 & ? & ? & ? & ?).
  destruct (IH _ _ _ Hr1) as (r2 & Hr2 & ? & ? & ? & ?).
  exists r2. repeat split; congruence.
Qed.

Lemma history_record_is_permanent_witness :
  ∃ row', afterHistoryCalls history_two history_calls !! "run-1" = Some row'
    ∧ SyncHistory.ID row' = SyncHistory.ID (run_at "run-1" 1700000000)
    ∧ SyncHistory.StartedAt row' = SyncHistory.StartedAt (run_at "run-1" 1700000000)
    ∧ SyncHistory.Direction row' = SyncHistory.Direction (run_at "run-1" 1700000000)
    ∧ SyncHistory.TablesSynced row'
      = SyncHistory.TablesSynced (run_at "run-1" 1700000000).
Proof.
  apply (history_record_is_permanent history_calls history_two "run-1"
           (run_at "run-1" 1700000000)).
  reflexivity.
Defined.

(** X9.  [GetSyncHistory] with offset 0 returns the most recent runs,
    newest first: the list is sorted by start time, descending, holds
    stored runs only and at most [limit] of them, and no run left out
    started later than a run returned. *)
Theorem GetSyncHistory_newest_first scanOrder ctx fault s limit runs :
  (∀ l, scanOrder l ≡ₚ l) →
  0 <= limit →
  MySQLStoreHistory.GetSyncHistory ctx fault scanOrder s limit 0 = (runs, nil) →
  StronglySorted MySQLStoreHistory.newerFirst runs
  ∧ Z.of_nat (length runs) <= limit
  ∧ Forall (λ h, ∃ id, s !! id = Some h) runs
  ∧ ∀ id h, s !! id = Some h → h ∉ runs →
      Forall (λ r, SyncHistory.StartedAt h <= SyncHistory.StartedAt r) runs.
Proof.
  intros Horder Hlimit Hget. unfold MySQLStoreHistory.GetSyncHistory in Hget.
  destruct (Sql.roundTrip ctx fault); [done|].
  destruct (decide (limit < 0 ∨ 0 < 0)) as [|Hneg]; [done|].
  injection Hget as <-. change (Z.to_nat 0) with 0%nat. rewrite drop_0.
  set (sorted := merge_sort MySQLStoreHistory.newerFirst
                   (scanOrder (map_to_list s).*2)).
  assert (Hsorted : StronglySorted MySQLStoreHistory.newerFirst sorted).
  { apply StronglySorted_merge_sort;
      [apply newerFirst_trans|apply newerFirst_total]. }
  assert (Hin : ∀ h, h ∈ sorted ↔ ∃ id, s !! id = Some h).
  { intros h. unfold sorted. rewrite merge_sort_Permutation, Horder.
    rewrite list_elem_of_fmap. split.
    - intros ([id r] & -> & Hr). exists id. by apply elem_of_map_to_list.
    - intros [id Hr]. exists (id, h). split; [done|]. by apply elem_of_map_to_list. }
  rewrite <- (take_drop (Z.to_nat limit) sorted) in Hsorted.
  apply StronglySorted_app in Hsorted as (Hcross & Htake & _).
  split; [done|]. split; [rewrite length_take; lia|]. split.
  - apply Forall_forall. intros h Hh. apply Hin. by eapply subseteq_take.
  - intros id h Hh Hout. apply Forall_forall. intros r Hr.
    apply (Hcross r h Hr).
    assert (Hs : h ∈ sorted) by (apply Hin; eauto).
    rewrite <- (take_drop (Z.to_nat limit) sorted) in Hs.
    apply elem_of_app in Hs as [Hs|Hs]; done.
Qed.

Lemma GetSyncHistory_newest_first_witness :
  let runs := [run_at "run-2" 1700003600; run_at "run-1" 1700000000] in
  StronglySorted MySQLStoreHistory.newerFirst runs
  ∧ Z.of_nat (length runs) <= 2
  ∧ Forall (λ h, ∃ id, history_three !! id = Some h) runs
  ∧ ∀ id h, history_three !! id = Some h → h ∉ runs →
      Forall (λ r, SyncHistory.StartedAt h <= SyncHistory.StartedAt r) runs.
Proof.
  apply (GetSyncHistory_newest_first id Context.Background nil history_three 2).
  - intros l. reflexivity.
  - lia.
  - vm_compute. reflexivity.
Defined.

(** ** Flushes *)

Section flushes.
Import WorkerPool.
Local Arguments run : simpl never.
Local Arguments processBatch : simpl never.

(** Under a cancelled context no transaction begins: the loop over the
    groups leaves target and store as they are. *)
Lemma foldl_processGroup_cancelled env p gs : ∀ wd,
  Context.Done (ctx p) = true →
  foldl (processGroup env p) wd gs = wd.
Proof.
  induction gs as [|[T evs] gs IH]; intros wd Hdone; simpl; [done|].
  rewrite <- (IH wd Hdone) at 2. f_equal.
  unfold processGroup. rewrite applyChanges_eq.
  unfold txErr, Sql.roundTrip. rewrite Hdone. by destruct wd.
Qed.

Lemma processBatch_cancelled env p w wd :
  Context.Done (ctx p) = true →
  (processBatch env p w wd).2 = wd.
Proof.
  intros Hdone. unfold processBatch. destruct (batch w); [done|]. simpl.
  by apply foldl_processGroup_cancelled.
Qed.





Lemma run_belowBatchSize env p wk w wd :
  belowBatchSize p w → belowBatchSize p (run env p wk w wd).1.1.
Proof.
  unfold belowBatchSize, run. intros Hw.
  pose proof (processBatch_worker env p w wd) as [Hb _].
  destruct wk as [e| | |]; cbv zeta.
  - destruct (_ >=? _) eqn:Hge; simpl.
    + destruct (processBatch_worker env p
                  {| id := id w; batch := batch w ++ [e] |} wd) as [-> _].
      simpl. lia.
    + simpl in *. lia.
  - simpl. rewrite Hb. simpl. lia.
  - destruct (0 <? length (batch w))%nat; simpl; [|done].
    rewrite Hb. simpl. lia.
  - simpl. rewrite Hb. simpl. lia.
Qed.

End flushes.



(** X11.  Once the context of the pool is cancelled, a worker commits
    nothing and records no position any more, whatever wakes it: the
    transaction of every group fails at its begin.  The flush [run] makes
    before it returns therefore discards the batch. *)
Theorem cancelled_pool_commits_nothing (env : WorkerPool.Env)
    (p : WorkerPool.t) (wk : WorkerPool.Wake) (w : WorkerPool.Worker)
    (wd : WorkerPool.World) :
  Context.Done (WorkerPool.ctx p) = true →
  let r := WorkerPool.run env p wk w wd in
  r.1.2 = wd
  ∧ (wk = WorkerPool.CtxDone ∨ wk = WorkerPool.ChanClosed →
     WorkerPool.batch r.1.1 = [] ∧ r.2 = true).
Proof.
  intros Hdone r. unfold r, WorkerPool.run. split.
  - destruct wk as [e| | |]; cbv zeta;
      repeat match goal with
      | |- context [if ?c then _ else _] => destruct c
      end; simpl; try done; by apply processBatch_cancelled.
  - intros [->| ->]; simpl; split; try done; apply processBatch_worker.
Qed.

Lemma cancelled_pool_commits_nothing_witness :
  let r := WorkerPool.run env_ok (WorkerPool.Stop (pool_of 2)) WorkerPool.CtxDone
             (worker_with [users_e1; orders_e]) world_0 in
  r.1.2 = world_0
  ∧ (WorkerPool.CtxDone = WorkerPool.CtxDone
     ∨ WorkerPool.CtxDone = WorkerPool.ChanClosed →
     WorkerPool.batch r.1.1 = [] ∧ r.2 = true).
Proof.
  apply (cancelled_pool_commits_nothing env_ok (WorkerPool.Stop (pool_of 2))
           WorkerPool.CtxDone (worker_with [users_e1; orders_e]) world_0).
  reflexivity.
Defined.

Section pool_runs.
Local Arguments WorkerPool.run : simpl never.
Local Arguments WorkerPool.processBatch : simpl never.

(** X12.  Between turns a worker holds fewer events than the batch size
    (with a batch size below 1, none at all): in every run of the pool
    that starts this way, the bound holds of every worker at the end. *)
Theorem batches_stay_below_batch_size (mvs : list WorkerPool.Move) :
  ∀ s s' : WorkerPool.State,
  WorkerPool.exec mvs s = Some s' →
  Forall (belowBatchSize (WorkerPool.pool s)) (WorkerPool.workers (WorkerPool.pool s)) →
  Forall (belowBatchSize (WorkerPool.pool s')) (WorkerPool.workers (WorkerPool.pool s')).
Proof.
  induction mvs as [|mv mvs IH]; intros s s' Hex Hinv; simpl in Hex.
  { by injection Hex as <-. }
  destruct (WorkerPool.step mv s) as [s1|] eqn:Hstep; [|done]. simpl in Hex.
  apply (IH s1 s' Hex). clear IH Hex.
  assert (Hturn : ∀ i w w' wd',
    WorkerPool.workers (WorkerPool.pool s) !! i = Some w →
    belowBatchSize (WorkerPool.pool s) w' →
    Forall (belowBatchSize
              (WorkerPool.pool
                 {| WorkerPool.pool := WorkerPool.withWorker (WorkerPool.pool s) i w';
                    WorkerPool.world := wd' |}))
      (WorkerPool.workers
         (WorkerPool.pool
            {| WorkerPool.pool := WorkerPool.withWorker (WorkerPool.pool s) i w';
               WorkerPool.world := wd' |}))).
  { intros i w w' wd' Hi Hw'. simpl. by apply Forall_insert. }
  destruct mv as [e|i env|i env]; simpl in Hstep.
  - destruct (_ && _); [|done].
    destruct (Chan.send _ _); simpl in Hstep; [|done]. by injection Hstep as <-.
  - destruct (WorkerPool.workers (WorkerPool.pool s) !! i) as [w|] eqn:Hi;
      simpl in Hstep; [|done].
    destruct (Chan.recv _) as [e ch| |]; [|done..].
    pose proof (run_belowBatchSize env (WorkerPool.pool s) (WorkerPool.Event e) w
                  (WorkerPool.withChan (WorkerPool.world s) ch)
                  (proj1 (Forall_lookup _ _) Hinv i w Hi)) as Hrun.
    destruct (WorkerPool.run _ _ _ _ _) as [[w' wd'] b].
    injection Hstep as <-. by eapply Hturn.
  - destruct (WorkerPool.workers (WorkerPool.pool s) !! i) as [w|] eqn:Hi;
      simpl in Hstep; [|done].
    pose proof (run_belowBatchSize env (WorkerPool.pool s) WorkerPool.Tick w
                  (WorkerPool.world s)
                  (proj1 (Forall_lookup _ _) Hinv i w Hi)) as Hrun.
    destruct (WorkerPool.run _ _ _ _ _) as [[w' wd'] b].
    injection Hstep as <-. by eapply Hturn.
Qed.

Lemma batches_stay_below_batch_size_witness :
  Forall (belowBatchSize (WorkerPool.pool state_single))
    (WorkerPool.workers (WorkerPool.pool state_single)).
Proof.
  apply (batches_stay_below_batch_size moves_single (state_of 1) state_single).
  - vm_compute. reflexivity.
  - repeat constructor.
Defined.



End pool_runs.

(** ** The listener when it is stopped *)

Section stopped_listener.
Import BinlogListener.

Lemma consume_all (b : list BinlogEvent.t) : ∀ src l d,
  Chan.buf (eventChan l) = b →
  Pipeline.exec (replicate (length b) Pipeline.Consume)
    {| Pipeline.source := src; Pipeline.listener := l; Pipeline.delivered := d |}
  = Some {| Pipeline.source := src;
            Pipeline.listener := withChan l (Chan.withBuf (eventChan l) []);
            Pipeline.delivered := d ++ b |}.
Proof.
  induction b as [|x b IH]; intros src l d Hb.
  - simpl. rewrite app_nil_r. do 2 f_equal.
    destruct l as [c cn [cp bf cl] cx tb]. simpl in *. by subst.
  - cbn [length replicate Pipeline.exec Pipeline.step Pipeline.listener
         Pipeline.source Pipeline.delivered].
    unfold Chan.recv. rewrite Hb. cbn [mbind option_bind].
    rewrite (IH src _ (d ++ [x])) by done.
    by rewrite <- app_assoc.
Qed.

End stopped_listener.

(** X14.  After [Stop], [OnRow] never puts an event into the queue and
    is never parked.  An event the listener filters out returns [nil] as
    before; for an event it would forward both arms of the [select] are
    ready: the call returns [context canceled], or, when the send arm is
    taken, panics on the closed queue. *)
Theorem OnRow_after_Stop_never_enqueues (pick : bool) (l : BinlogListener.t)
    (pos : Canal.Position) (e : Canal.RowsEvent) :
  match BinlogListener.OnRow pick (BinlogListener.Stop l) pos e with
  | BinlogListener.Return l' err =>
      l' = BinlogListener.Stop l
      ∧ match Pipeline.forwarded (BinlogListener.tables l) (pos, e) with
        | None => err = nil
        | Some _ => err = Some Context.Canceled ∧ pick = false
        end
  | BinlogListener.Parked _ _ => False
  | BinlogListener.Panic =>
      pick = true
      ∧ is_Some (Pipeline.forwarded (BinlogListener.tables l) (pos, e))
  end.
Proof.
  unfold BinlogListener.OnRow, Pipeline.forwarded. simpl.
  destruct (decide (Canal.TableName e ∈ BinlogListener.tables l)); [|done].
  destruct (BinlogListener.eventTypeOf (Canal.Action e)); simpl; [|done].
  destruct pick; simpl; eauto.
Qed.

(** X15.  [Stop] closes the queue without emptying it: the consumers
    still receive every event that was queued, in the order of the queue,
    and only then see the queue closed. *)
Theorem queue_survives_Stop (src : list (Canal.Position * Canal.RowsEvent))
    (l : BinlogListener.t) (d : list BinlogEvent.t) :
  let l' := BinlogListener.Stop l in
  let b := Chan.buf (BinlogListener.eventChan l) in
  let drained := Chan.withBuf (BinlogListener.eventChan l') [] in
  Pipeline.exec (replicate (length b) Pipeline.Consume)
    {| Pipeline.source := src; Pipeline.listener := l';
       Pipeline.delivered := d |}
  = Some {| Pipeline.source := src;
            Pipeline.listener := BinlogListener.withChan l' drained;
            Pipeline.delivered := d ++ b |}
  ∧ Chan.recv drained = Chan.Closed.
Proof.
  intros l' b drained. split; [|done].
  by apply consume_all.
Qed.

(** ** The manager over sequences of calls *)

Section manager_calls.

Lemma lifecycle_status (m : Manager.t) :
  lifecycle m → Manager.status m = "idle" ∨ Manager.status m = "running".
Proof.
  unfold lifecycle.
  destruct (Manager.binlogListener m), (Manager.workerPool m);
    intros H; try done; [|by left].
  destruct H as [(? & _)|(? & _)]; [by right|by left].
Qed.

Lemma Start_lifecycle (newCanalErr : error) (m : Manager.t) (s : MySQLStore.t)
    (r : bool) :
  lifecycle m → Manager.status m = statusOf r →
  let res := Manager.Start newCanalErr m s in
  lifecycle res.1.1
  ∧ Manager.status res.1.1
    = statusOf (if newCanalErr is None then true else r)
  ∧ res.1.2 = s
  ∧ Manager.cfg res.1.1 = Manager.cfg m
  ∧ res.2 = (if r then Some "sync is already running"
             else (λ e, "failed to create canal: " +:+ e) <$> newCanalErr).
Proof.
  intros Hl Hs. unfold Manager.Start.
  destruct (decide (Manager.status m = "running")) as [Hrun|Hidle].
  - simpl. destruct r; [|by rewrite Hs in Hrun].
    repeat split; try done. by destruct newCanalErr.
  - destruct r; [by rewrite Hs in Hidle|].
    unfold BinlogListener.NewBinlogListener.
    destruct newCanalErr as [e|]; simpl; [done|].
    repeat split; try done. left. done.
Qed.

Lemma Stop_lifecycle (m : Manager.t) :
  lifecycle m →
  lifecycle (Manager.Stop m)
  ∧ Manager.status (Manager.Stop m) = "idle"
  ∧ Manager.cfg (Manager.Stop m) = Manager.cfg m.
Proof.
  intros Hl. unfold Manager.Stop.
  destruct (decide (Manager.status m = "running")) as [Hrun|Hidle].
  - split; [|done]. unfold lifecycle in *. simpl.
    destruct (Manager.binlogListener m), (Manager.workerPool m); simpl;
      [|done|done|by rewrite Hl in Hrun].
    destruct Hl as [(_ & _)|(Hidle & _)]; [|by rewrite Hidle in Hrun].
    right. done.
  - split; [done|]. split; [|done].
    by destruct (lifecycle_status m Hl).
Qed.

Lemma afterManagerCall_lifecycle (st : Manager.t * MySQLStore.t)
    (c : ManagerCall) (r : bool) :
  lifecycle st.1 → Manager.status st.1 = statusOf r →
  let st' := afterManagerCall st c in
  lifecycle st'.1
  ∧ Manager.status st'.1
    = statusOf (if starts c then true else if stops c then false else r)
  ∧ st'.2 = st.2
  ∧ Manager.cfg st'.1 = Manager.cfg st.1.
Proof.
  intros Hl Hs. destruct st as [m s]. simpl in Hl, Hs.
  pose proof (Stop_lifecycle m Hl) as (HSl & HSs & HSc).
  assert (HStart : ∀ e,
    let res := (Manager.Start e m s).1 in
    lifecycle res.1
    ∧ Manager.status res.1 = statusOf (if e is None then true else r)
    ∧ res.2 = s ∧ Manager.cfg res.1 = Manager.cfg m).
  { intros e. destruct (Start_lifecycle e m s r Hl Hs) as (?&?&?&?&_). done. }
  destruct c as [e| |e|e req]; simpl.
  - destruct (HStart e) as (?&?&?&?). by destruct e.
  - done.
  - unfold Scheduler.triggerSync, Manager.GetStatus.
    destruct (decide (Manager.status m = "running")) as [Hrun|Hidle].
    + simpl. destruct r; [by destruct e|by rewrite Hs in Hrun].
    + destruct (HStart e) as (?&?&?&?). by destruct e.
  - unfold Api.Routes.
    destruct (decide (Api.Method req = "OPTIONS")) as [Hopt|_].
    { simpl. rewrite !bool_decide_eq_false_2 by (rewrite Hopt; by intros [? _]).
      by destruct e. }
    destruct (decide (Api.Method req = "GET" ∧ Api.Path req = "/health"))
      as [[Hm Hp]|_].
    { simpl. rewrite !bool_decide_eq_false_2 by (rewrite Hm; by intros [? _]).
      by destruct e. }
    destruct (decide (Api.Method req = "POST"
                      ∧ Api.Path req = "/api/v1/sync/trigger")) as [[Hm Hp]|Hnt].
    { simpl. rewrite bool_decide_eq_true_2 by done.
      rewrite bool_decide_eq_false_2 by (rewrite Hp; by intros [_ ?]).
      unfold Api.TriggerSync. simpl.
      destruct (HStart e) as (?&?&?&?).
      destruct (Manager.Start e m s) as [[m' s'] [err|]]; by destruct e. }
    destruct (decide (Api.Method req = "POST"
                      ∧ Api.Path req = "/api/v1/sync/stop")) as [[Hm Hp]|Hns].
    { simpl. rewrite bool_decide_eq_false_2 by done.
      rewrite bool_decide_eq_true_2 by done. by destruct e. }
    rewrite !bool_decide_eq_false_2 by done.
    destruct (decide (Api.Method req = "GET"
                      ∧ Api.Path req = "/api/v1/sync/status")); simpl;
      by destruct e.
Qed.

Lemma afterManagerCalls_lifecycle (cs : list ManagerCall) :
  ∀ (st : Manager.t * MySQLStore.t) (r : bool),
  lifecycle st.1 → Manager.status st.1 = statusOf r →
  let st' := afterManagerCalls st cs in
  lifecycle st'.1
  ∧ Manager.status st'.1 = statusOf (runningAfter r cs)
  ∧ st'.2 = st.2
  ∧ Manager.cfg st'.1 = Manager.cfg st.1.
Proof.
  induction cs as [|c cs IH]; intros st r Hl Hs; simpl; [done|].
  destruct (afterManagerCall_lifecycle st c r Hl Hs) as (Hl1 & Hs1 & <- & <-).
  by apply IH.
Qed.

End manager_calls.

(** X16.  Whatever is called on a new manager, by the program, the
    scheduler or the API, and in whatever order, the manager is either
    running, with a live listener on an open queue and a live pool, or
    idle with both cancelled and the queue closed; so [Stop], which
    closes the queue only when the status is [running], never closes a
    closed queue, however often it is called.  The status is the one the
    calls tell: running after a start whose canal could be created, idle
    after a stop.  The state store is not written. *)
Theorem manager_lifecycle (cfg : Config.t) (s : MySQLStore.t)
    (cs : list ManagerCall) :
  let st := afterManagerCalls (Manager.NewManager cfg, s) cs in
  lifecycle st.1
  ∧ Manager.GetStatus st.1 = statusOf (runningAfter false cs)
  ∧ st.2 = s
  ∧ Manager.cfg st.1 = cfg.
Proof.
  unfold Manager.GetStatus.
  induction cs as [|c cs IH] using rev_ind; [done|].
  unfold afterManagerCalls, runningAfter in *. rewrite !foldl_snoc.
  destruct IH as (Hl & Hs & Hst & Hcfg).
  destruct (afterManagerCall_lifecycle _ c _ Hl Hs) as (? & ? & ? & ?).
  repeat split; try done; congruence.
Qed.

(** X17.  The API as its clients see it, after any calls on a new
    manager: the status request answers 200 with [running] or [idle] as
    the calls tell; the trigger request answers 400 with
    [sync is already running] while a run is on, 400 with the error of
    the canal when it cannot be created, and 200 with [started]
    otherwise; the stop request always answers 200 with [stopped]. *)
Theorem api_answers_follow_the_run (cfg : Config.t) (s : MySQLStore.t)
    (cs : list ManagerCall) (newCanalErr : error) :
  let st := afterManagerCalls (Manager.NewManager cfg, s) cs in
  let running := runningAfter false cs in
  (Api.Routes newCanalErr st
     {| Api.Method := "GET"; Api.Path := "/api/v1/sync/status" |}).2
  = Api.Reply (Api.encodeStatus (statusOf running))
  ∧ (Api.Routes newCanalErr st
       {| Api.Method := "POST"; Api.Path := "/api/v1/sync/trigger" |}).2
    = Api.Reply
        (if running then Api.httpError "sync is already running" 400
         else match newCanalErr with
              | Some e => Api.httpError ("failed to create canal: " +:+ e) 400
              | None => Api.encodeStatus "started"
              end)
  ∧ (Api.Routes newCanalErr st
       {| Api.Method := "POST"; Api.Path := "/api/v1/sync/stop" |}).2
    = Api.Reply (Api.encodeStatus "stopped").
Proof.
  intros st running.
  destruct (afterManagerCalls_lifecycle cs (Manager.NewManager cfg, s) false)
    as (Hl & Hs & _ & _); [done..|].
  fold st in Hl, Hs. fold running in Hs.
  split; [|split].
  - unfold Api.Routes, Api.GetSyncStatus, Manager.GetStatus. simpl.
    by rewrite Hs.
  - unfold Api.Routes, Api.TriggerSync. simpl.
    destruct (Start_lifecycle newCanalErr st.1 st.2 running Hl Hs)
      as (_ & _ & _ & _ & Herr).
    destruct (Manager.Start newCanalErr st.1 st.2) as [[m' s'] err].
    simpl in Herr. subst err.
    destruct running; [done|]. by destruct newCanalErr.
  - done.
Qed.

(** ** Opening and closing the databases *)

Section connect.
Import Connect.

Lemma pingLoop_succeeds (ping : nat → error) : ∀ n i k err,
  (i ≤ k < i + n)%nat → ping k = nil →
  (∀ j, (i ≤ j < k)%nat → ping j ≠ nil) →
  pingLoop ping i n err = ((k - i)%nat, nil).
Proof.
  induction n as [|n IH]; intros i k err Hk Hping Hfail; [lia|]. simpl.
  destruct (decide (i = k)) as [->|Hne].
  - rewrite Hping. f_equal. lia.
  - destruct (ping i) as [e|] eqn:Hi; [|exfalso; apply (Hfail i); [lia|done]].
    rewrite (IH (S i) k (Some e)); [|lia|done|intros; apply Hfail; lia].
    f_equal. lia.
Qed.

Lemma pingLoop_fails (ping : nat → error) : ∀ n i err,
  (∀ j, (i ≤ j < i + n)%nat → ping j ≠ nil) →
  pingLoop ping i n err
  = (n, match n with O => err | S n' => ping (i + n')%nat end).
Proof.
  induction n as [|n IH]; intros i err Hfail; simpl; [done|].
  destruct (ping i) as [e|] eqn:Hi; [|exfalso; apply (Hfail i); [lia|done]].
  rewrite IH by (intros; apply Hfail; lia). f_equal.
  destruct n as [|n']; [by rewrite Nat.add_0_r|].
  f_equal. lia.
Qed.

Lemma NewDatabase_cases (f : Faults) (cfg : Config.DatabaseConnection)
    (hs : Handles.t) :
  NewDatabase f cfg hs
  = match openErr f, pingErr f with
    | Some err, _ => (hs, inr ("failed to open database connection: " +:+ err))
    | None, Some err =>
        ((Handles.Open (databaseDSN cfg) hs).2,
         inr ("failed to ping database: " +:+ err))
    | None, None =>
        ((Handles.Open (databaseDSN cfg) hs).2, inl (Handles.opened hs))
    end.
Proof. unfold NewDatabase. by destruct (openErr f), (pingErr f). Qed.

Lemma handlesOk_fresh (hs : Handles.t) (h : nat) :
  handlesOk hs → (Handles.opened hs ≤ h)%nat → Handles.open hs !! h = None.
Proof.
  intros Hok Hh. destruct (Handles.open hs !! h) eqn:E; [|done].
  specialize (Hok h). rewrite E in Hok. specialize (Hok (mk_is_Some _ _ eq_refl)). lia.
Qed.

End connect.

(** X18.  [NewMySQLStore] pings at most 30 times, one second apart: when
    ping [k] is the first to succeed, with [k] below 30, it returns the
    store after [k] seconds of sleep; when the first 30 pings all fail it
    gives up after 30 seconds with the error of the last ping, wrapped,
    and the handle it opened is not closed. *)
Theorem NewMySQLStore_retries (ping : nat → error)
    (cfg : Connect.StateStorage) (hs : Handles.t) :
  (∀ k, (k < 30)%nat → ping k = nil → (∀ j, (j < k)%nat → ping j ≠ nil) →
     Connect.NewMySQLStore nil ping cfg hs
     = ((Handles.Open (Connect.storeDSN cfg) hs).2,
        inl (Handles.opened hs), k))
  ∧ ((∀ j, (j < 30)%nat → ping j ≠ nil) →
     ∃ e, ping 29%nat = Some e
       ∧ Connect.NewMySQLStore nil ping cfg hs
         = ((Handles.Open (Connect.storeDSN cfg) hs).2,
            inr ("failed to ping mysql after retries: " +:+ e), 30%nat)).
Proof.
  unfold Connect.NewMySQLStore, Connect.maxRetries. split.
  - intros k Hk Hping Hfail. cbn [Handles.Open].
    rewrite (pingLoop_succeeds ping 30 0 k nil);
      [|lia|done|intros; apply Hfail; lia].
    by rewrite Nat.sub_0_r.
  - intros Hfail. cbn [Handles.Open].
    rewrite (pingLoop_fails ping 30 0 nil) by (intros; apply Hfail; lia).
    cbn [Nat.add]. destruct (ping 29%nat) as [e|] eqn:E.
    + by exists e.
    + exfalso. apply (Hfail 29%nat); [lia|done].
Qed.

Lemma NewMySQLStore_retries_witness :
  Connect.NewMySQLStore nil ping_up_at_3 state_storage Handles.none
  = ((Handles.Open (Connect.storeDSN state_storage) Handles.none).2,
     inl (Handles.opened Handles.none), 3%nat).
Proof.
  apply (proj1 (NewMySQLStore_retries ping_up_at_3 state_storage Handles.none)
           3%nat).
  - lia.
  - reflexivity.
  - intros j Hj. destruct j as [|[|[|j]]]; [done..|lia].
Defined.

(** X19.  [NewManager] keeps no connection it cannot use.  When it
    succeeds, the two handles it opened, and they only, have been added
    to the open handles.  When it fails, every handle that was open
    stays open, and a handle it leaves open besides is one whose ping
    has just failed: the local handle is closed again when the cloud
    database cannot be connected. *)
Theorem NewManager_keeps_no_connection (fLocal fCloud : Connect.Faults)
    (cfg : Config.t) (hs hs' : Handles.t) (r : Connect.Manager + string) :
  handlesOk hs →
  Connect.NewManager fLocal fCloud cfg hs = (hs', r) →
  handlesOk hs'
  ∧ (∀ h, is_Some (Handles.open hs !! h) → is_Some (Handles.open hs' !! h))
  ∧ match r with
    | inl m =>
        Connect.manager m = Manager.NewManager cfg
        ∧ Connect.localDB m ≠ Connect.cloudDB m
        ∧ Handles.open hs !! Connect.localDB m = None
        ∧ Handles.open hs !! Connect.cloudDB m = None
        ∧ Handles.open hs'
          = <[Connect.cloudDB m :=
                Connect.databaseDSN (Config.Cloud (Config.Databases cfg))]>
              (<[Connect.localDB m :=
                   Connect.databaseDSN (Config.Local (Config.Databases cfg))]>
                 (Handles.open hs))
    | inr _ =>
        ∀ h, is_Some (Handles.open hs' !! h) →
          is_Some (Handles.open hs !! h)
          ∨ h = Handles.opened hs ∧ is_Some (Connect.pingErr fLocal)
          ∨ h = S (Handles.opened hs) ∧ is_Some (Connect.pingErr fCloud)
    end.
Proof.
  intros Hok. unfold Connect.NewManager. rewrite !NewDatabase_cases.
  pose proof (handlesOk_fresh hs _ Hok (Nat.le_refl _)) as Hf0.
  pose proof (handlesOk_fresh hs (S (Handles.opened hs)) Hok
                (Nat.le_succ_diag_r _)) as Hf1.
  assert (Hin : ∀ h, is_Some (Handles.open hs !! h) →
                     (h < Handles.opened hs)%nat) by exact Hok.
  unfold handlesOk.
  destruct (Connect.openErr fLocal) as [e|].
  { intros [= <- <-]. split; [done|]. split; [done|]. auto. }
  destruct (Connect.pingErr fLocal) as [e|].
  { intros [= <- <-]. simpl. split; [|split].
    - intros h. rewrite lookup_insert. case_decide; [lia|].
      intros Hh. specialize (Hin h Hh). lia.
    - intros h Hh. rewrite lookup_insert_ne; [done|].
      specialize (Hin h Hh). lia.
    - intros h. rewrite lookup_insert. case_decide; eauto. }
  rewrite NewDatabase_cases.
  destruct (Connect.openErr fCloud) as [e|].
  { intros [= <- <-]. simpl. rewrite delete_insert_id by done.
    split; [|split]; [|done|auto].
    intros h Hh. specialize (Hin h Hh). lia. }
  destruct (Connect.pingErr fCloud) as [e|].
  { intros [= <- <-]. simpl.
    rewrite delete_insert_ne by lia. rewrite delete_insert_id by done.
    split; [|split].
    - intros h. rewrite lookup_insert. case_decide; [lia|].
      intros Hh. specialize (Hin h Hh). lia.
    - intros h Hh. rewrite lookup_insert_ne; [done|].
      specialize (Hin h Hh). lia.
    - intros h. rewrite lookup_insert. case_decide; eauto. }
  intros [= <- <-]. simpl. split; [|split].
  - intros h. rewrite !lookup_insert. repeat case_decide; try lia.
    intros Hh. specialize (Hin h Hh). lia.
  - intros h Hh. specialize (Hin h Hh). rewrite !lookup_insert_ne by lia. done.
  - repeat split; try done.
Qed.

Lemma NewManager_keeps_no_connection_witness :
  handlesOk (Connect.NewManager connects unreachable (config_users 2)
               handles_store).1
  ∧ (∀ h, is_Some (Handles.open handles_store !! h) →
       is_Some (Handles.open
                  (Connect.NewManager connects unreachable (config_users 2)
                     handles_store).1 !! h))
  ∧ ∀ h, is_Some (Handles.open
                    (Connect.NewManager connects unreachable (config_users 2)
                       handles_store).1 !! h) →
      is_Some (Handles.open handles_store !! h)
      ∨ h = Handles.opened handles_store ∧ is_Some (Connect.pingErr connects)
      ∨ h = S (Handles.opened handles_store)
        ∧ is_Some (Connect.pingErr unreachable).
Proof.
  apply (NewManager_keeps_no_connection connects unreachable (config_users 2)
           handles_store
           (Connect.NewManager connects unreachable (config_users 2)
              handles_store).1
           (inr "failed to connect to cloud db: failed to ping database: dial tcp: i/o timeout")).
  - intros h. unfold handles_store. simpl. rewrite lookup_insert.
    case_decide; [lia|]. rewrite lookup_empty. by intros [? ?].
  - reflexivity.
Defined.

(** X20.  [Close] gives back what [NewManager] took: after any calls on
    the manager, running or not, [Close] leaves it idle with listener
    and pool stopped, and the open handles are those from before
    [NewManager]; a second [Close] changes nothing. *)
Theorem Close_releases_the_handles (fLocal fCloud : Connect.Faults)
    (cfg : Config.t) (hs hs1 : Handles.t) (m : Connect.Manager)
    (s : MySQLStore.t) (cs : list ManagerCall) :
  handlesOk hs →
  Connect.NewManager fLocal fCloud cfg hs = (hs1, inl m) →
  let st := afterManagerCalls (Connect.manager m, s) cs in
  let closed :=
    Connect.Close {| Connect.manager := st.1;
                     Connect.localDB := Connect.localDB m;
                     Connect.cloudDB := Connect.cloudDB m |} hs1 in
  Handles.open closed.2 = Handles.open hs
  ∧ Manager.GetStatus (Connect.manager closed.1) = "idle"
  ∧ lifecycle (Connect.manager closed.1)
  ∧ Connect.Close closed.1 closed.2 = closed.
Proof.
  intros Hok Hnew st closed.
  pose proof (handlesOk_fresh hs _ Hok (Nat.le_refl _)) as Hf0.
  pose proof (handlesOk_fresh hs (S (Handles.opened hs)) Hok
                (Nat.le_succ_diag_r _)) as Hf1.
  unfold Connect.NewManager in Hnew. rewrite !NewDatabase_cases in Hnew.
  destruct (Connect.openErr fLocal); [done|].
  destruct (Connect.pingErr fLocal); [done|].
  rewrite NewDatabase_cases in Hnew.
  destruct (Connect.openErr fCloud); [done|].
  destruct (Connect.pingErr fCloud); [done|].
  injection Hnew as <- <-. simpl in st.
  destruct (afterManagerCalls_lifecycle cs (Manager.NewManager cfg, s) false)
    as (Hl & _ & _ & _); [done..|].
  fold st in Hl.
  destruct (Stop_lifecycle st.1 Hl) as (HSl & HSs & _).
  assert (Hopen : Handles.open closed.2 = Handles.open hs).
  { unfold closed. simpl.
    rewrite delete_insert_ne by lia.
    rewrite (delete_insert_id (Handles.open hs) (Handles.opened hs)) by done.
    by rewrite delete_insert_id. }
  split; [done|]. split; [exact HSs|]. split; [exact HSl|].
  unfold closed in Hopen |- *. unfold Connect.Close, Handles.Close in Hopen |- *.
  simpl in Hopen |- *. f_equal.
  - f_equal. unfold Manager.Stop at 1. by rewrite HSs.
  - f_equal. rewrite Hopen.
    rewrite (delete_id _ (Handles.opened hs)) by done.
    by rewrite delete_id.
Qed.

Lemma Close_releases_the_handles_witness :
  let m := {| Connect.manager := Manager.NewManager (config_users 2);
              Connect.localDB := 1; Connect.cloudDB := 2 |} in
  let st := afterManagerCalls (Connect.manager m, store_at "mysql-bin.000001" 4)
              lifecycle_calls in
  let closed :=
    Connect.Close {| Connect.manager := st.1;
                     Connect.localDB := Connect.localDB m;
                     Connect.cloudDB := Connect.cloudDB m |}
      (Connect.NewManager connects connects (config_users 2) handles_store).1 in
  Handles.open closed.2 = Handles.open handles_store
  ∧ Manager.GetStatus (Connect.manager closed.1) = "idle"
  ∧ lifecycle (Connect.manager closed.1)
  ∧ Connect.Close closed.1 closed.2 = closed.
Proof.
  apply (Close_releases_the_handles connects connects (config_users 2)
           handles_store
           (Connect.NewManager connects connects (config_users 2)
              handles_store).1
           {| Connect.manager := Manager.NewManager (config_users 2);
              Connect.localDB := 1; Connect.cloudDB := 2 |}
           (store_at "mysql-bin.000001" 4) lifecycle_calls).
  - intros h. unfold handles_store. simpl. rewrite lookup_insert.
    case_decide; [lia|]. rewrite lookup_empty. by intros [? ?].
  - reflexivity.
Defined.

(** ** The shape of a hash *)

Section hash_shape.
Import SHA256.

Lemma round_length (st : list Z) (kw : Z * Z) :
  length st = 8%nat → length (round st kw) = 8%nat.
Proof.
  intros H. do 9 (destruct st as [|? st]; try done).
Qed.

Lemma foldl_round_length (l : list (Z * Z)) : ∀ st,
  length st = 8%nat → length (foldl round st l) = 8%nat.
Proof.
  induction l as [|kw l IH]; intros st H; simpl; [done|].
  by apply IH, round_length.
Qed.

Lemma blocks_length (n : nat) : ∀ h bs,
  length h = 8%nat → length (blocks n h bs) = 8%nat.
Proof.
  induction n as [|n IH]; intros h bs H; simpl; [done|].
  apply IH. unfold block. rewrite length_zip_with, foldl_round_length by done.
  lia.
Qed.

Lemma be_bytes_length (n : nat) : ∀ x, length (be_bytes n x) = n.
Proof.
  induction n as [|n IH]; intros x; simpl; [done|].
  rewrite length_app, IH. simpl. lia.
Qed.

Lemma Sum256_length (msg : string) : length (Sum256 msg) = 32%nat.
Proof.
  unfold Sum256.
  assert (H0_8 : length H0 = 8%nat) by (vm_compute; reflexivity).
  pose proof (blocks_length
                (length (pad (bytes_of_string msg)) / 64) H0
                (pad (bytes_of_string msg)) H0_8) as H.
  destruct (blocks _ _ _) as [|a [|b [|c [|d [|e [|f [|g [|h [|? ?]]]]]]]]];
    try done.
Qed.

Lemma hexdigit_isHexDigit (d : Z) : isHexDigit (Fmt.hexdigit d).
Proof.
  unfold isHexDigit, Fmt.hexdigit.
  destruct (decide (Z.to_nat d < 16)%nat) as [Hlt|Hge].
  - apply list_elem_of_In, nth_In. simpl. lia.
  - rewrite nth_overflow by (simpl; lia). set_solver.
Qed.

Lemma hex_shape (bs : list Z) :
  String.length (Fmt.hex bs) = (2 * length bs)%nat
  ∧ Forall isHexDigit (list_ascii_of_string (Fmt.hex bs)).
Proof.
  induction bs as [|b bs [IHl IHd]]; simpl; [by split|].
  split; [lia|].
  apply Forall_cons_2; [apply hexdigit_isHexDigit|].
  apply Forall_cons_2; [apply hexdigit_isHexDigit|done].
Qed.

End hash_shape.

(** X21.  [calculateHash] always returns 64 lower-case hexadecimal
    digits, whatever the image: the digest has 32 bytes for every
    input, and each is printed as two digits. *)
Theorem calculateHash_is_64_hex_digits (data : Json.GoMap) :
  String.length (ConflictManager.calculateHash data) = 64%nat
  ∧ Forall isHexDigit
      (list_ascii_of_string (ConflictManager.calculateHash data)).
Proof.
  unfold ConflictManager.calculateHash.
  destruct (hex_shape (SHA256.Sum256 (Json.Marshal data))) as [Hl Hd].
  by rewrite Hl, Sum256_length.
Qed.

(** X22.  A pool configured with no worker applies nothing: whatever
    moves are made, the target and the state store stay as they are and
    the queue holds every event the listener has put into it, in order,
    up to its capacity. *)
Theorem no_worker_nothing_applied (cfg : Config.SyncConfig)
    (wd : WorkerPool.World) (mvs : list WorkerPool.Move)
    (s' : WorkerPool.State) :
  Config.Workers cfg = 0 →
  WorkerPool.exec mvs
    {| WorkerPool.pool := WorkerPool.NewWorkerPool cfg; WorkerPool.world := wd |}
  = Some s' →
  WorkerPool.targetDB (WorkerPool.world s') = WorkerPool.targetDB wd
  ∧ WorkerPool.store (WorkerPool.world s') = WorkerPool.store wd
  ∧ Chan.buf (WorkerPool.eventChan (WorkerPool.world s'))
    = Chan.buf (WorkerPool.eventChan wd) ++ enqueued mvs
  ∧ (mvs ≠ [] →
     Z.of_nat (length (Chan.buf (WorkerPool.eventChan (WorkerPool.world s'))))
     <= Chan.cap (WorkerPool.eventChan wd)).
Proof.
  intros Hw. unfold WorkerPool.NewWorkerPool. rewrite Hw.
  change (seqZ 0 0) with ([] : list Z). rewrite fmap_nil.
  set (p := {| WorkerPool.workers := []; WorkerPool.ctx := Context.Background;
               WorkerPool.batchSize := Config.BatchInsertSize cfg |}).
  revert wd. induction mvs as [|mv mvs IH]; intros wd Hex.
  { injection Hex as <-. simpl. by rewrite app_nil_r. }
  cbn [WorkerPool.exec] in Hex.
  destruct mv as [e|i env|i env]; simpl in Hex; [|done..].
  destruct (Chan.hasSpace (WorkerPool.eventChan wd)) eqn:Hspace; [|done].
  destruct (Chan.closed (WorkerPool.eventChan wd)) eqn:Hclosed; [done|].
  unfold Chan.send in Hex. rewrite Hclosed in Hex. simpl in Hex.
  destruct (IH _ Hex) as (-> & -> & -> & Hcap). simpl.
  split; [done|]. split; [done|]. split; [by rewrite <- app_assoc|].
  intros _. destruct mvs as [|mv' mvs'].
  - simpl. rewrite app_nil_r, length_app. simpl.
    unfold Chan.hasSpace in Hspace. lia.
  - by apply Hcap.
Qed.

Lemma no_worker_nothing_applied_witness :
  let s' := {| WorkerPool.pool := pool_of 0;
               WorkerPool.world :=
                 WorkerPool.withChan world_0
                   (Chan.withBuf (WorkerPool.eventChan world_0)
                      [users_e1; orders_e]) |} in
  WorkerPool.targetDB (WorkerPool.world s') = WorkerPool.targetDB world_0
  ∧ WorkerPool.store (WorkerPool.world s') = WorkerPool.store world_0
  ∧ Chan.buf (WorkerPool.eventChan (WorkerPool.world s'))
    = Chan.buf (WorkerPool.eventChan world_0)
      ++ enqueued [WorkerPool.Enqueue users_e1; WorkerPool.Enqueue orders_e]
  ∧ ([WorkerPool.Enqueue users_e1; WorkerPool.Enqueue orders_e] ≠ [] →
     Z.of_nat (length (Chan.buf (WorkerPool.eventChan (WorkerPool.world s'))))
     <= Chan.cap (WorkerPool.eventChan world_0)).
Proof.
  apply (no_worker_nothing_applied (Config.Sync (config_users 0)) world_0
           [WorkerPool.Enqueue users_e1; WorkerPool.Enqueue orders_e]).
  - reflexivity.
  - vm_compute. reflexivity.
Defined.
